(** * Bigram phoneme language models (LM_models.py)

    A shallow embedding of the two estimators of [LM_models.py], the
    count-based model with add-one smoothing ([Phoneme_LM]) and the back-off
    model with absolute discounting ([Absdisc_Phoneme_LM]), together with
    the evaluation layer ([logP], [perplexity], [surprisal]) and the
    probability-mass self-test ([test]).

    Modelling conventions.
    - A phoneme is a [string]; a transcription is a [list] of phonemes and a
      corpus a list of transcriptions.
    - A [collections.Counter] is a [gmap] to [nat]; a key is present exactly
      when its count is positive, as for a Counter built from a list.
    - The phoneme set is a Python [set] object that the model shares with its
      caller ([self.phoneme_set = phoneme_set]); it lives in a [store] and the
      model keeps its location.  The training corpus lives in the store too.
    - Python raises exceptions; fallible code returns a [result].  An
      exception leaves earlier mutations of the store in place, so the
      constructors return the store next to the result.
    - Python floats are idealised as exact rationals ([Q]); rounding,
      overflow and underflow are not modelled.  Logarithms and powers are
      taken in the real numbers.
    - Iteration over a set or a dict visits every element once, in the order
      of [elements] and [map_to_list].

    The corpus reader and the report of [phonemic_similarity.py] are modelled
    after the models, over the lines of the file. *)

From Stdlib Require Import QArith Qabs Reals Qreals Lra Lqa Lia Ascii String.
From stdpp Require Import gmap strings list fin_maps fin_sets.

Open Scope string_scope.
Open Scope list_scope.
Open Scope nat_scope.
Open Scope stdpp_scope.

(** Linear arithmetic over the rationals and over the reals. *)
Ltac lraQ := Lqa.lra.
Ltac lraR := Lra.lra.

(** ** Exceptions and the error monad *)

Inductive exn : Set :=
  | ZeroDivisionError
  | KeyError
  | IndexError
  | ValueError
  | AssertionError.

Inductive result (A : Type) : Type :=
  | Ok (a : A)
  | Err (e : exn).
Arguments Ok {A} a.
Arguments Err {A} e.

#[global] Instance result_ret : MRet result := λ A, Ok.
#[global] Instance result_bind : MBind result :=
  λ A B f r, match r with Ok a => f a | Err e => Err e end.

(** [for x in l: s = body s x], stopping at the first exception. *)
Fixpoint foldM {S A : Type} (body : S → A → result S) (s : S) (l : list A)
  : result S :=
  match l with
  | [] => Ok s
  | x :: l' => s' ← body s x; foldM body s' l'
  end.

(** [[e(x) for x in l]] *)
Fixpoint list_comp {A B : Type} (e : A → result B) (l : list A)
  : result (list B) :=
  match l with
  | [] => Ok []
  | x :: l' => y ← e x; ys ← list_comp e l'; Ok (y :: ys)
  end.

(** [range(a, b)] *)
Definition range (a b : nat) : list nat := seq a (b - a).

(** [l[i]] for a non-negative index. *)
Definition getitem {A : Type} (l : list A) (i : nat) : result A :=
  match l !! i with
  | Some x => Ok x
  | None => Err IndexError
  end.

(** ** Numbers *)

Definition Qnat (n : nat) : Q := inject_Z (Z.of_nat n).

(** True division [a / b]. *)
Definition pydiv (a b : Q) : result Q :=
  if Qeq_bool b 0 then Err ZeroDivisionError else Ok (a / b)%Q.

(** [max(a, 0)]: the first argument unless the second is greater. *)
Definition pymax0 (a : Q) : Q :=
  if Qlt_le_dec a 0 then 0%Q else a.

(** [math.log(x, 2)] *)
Definition pylog2 (x : R) : result R :=
  if Rle_dec x 0 then Err ValueError else Ok (ln x / ln 2)%R.

(** [math.pow(2, y)] *)
Definition pypow2 (y : R) : R := Rpower 2 y.

(** ** Counters *)

Abbreviation symbol := string.
Abbreviation bigram := (symbol * symbol)%type.

(** [Counter(l)] *)
Definition Counter `{Countable K} (l : list K) : gmap K nat :=
  foldl (λ m x, <[x := S (default 0 (m !! x))]> m) ∅ l.

(** [C[k] if k in C else 0] *)
Definition count_of `{Countable K} (C : gmap K nat) (k : K) : nat :=
  match C !! k with
  | Some n => n
  | None => 0
  end.

(** [sum(C.values())] *)
Definition sum_values `{Countable K} (C : gmap K nat) : nat :=
  sum_list ((λ kv, kv.2) <$> map_to_list C).

(** [sum(1 for k in C if cond)] *)
Definition count_keys `{Countable K} (C : gmap K nat)
    (cond : K * nat → bool) : nat :=
  sum_list ((λ _, 1) <$> filter (λ kv, cond kv = true) (map_to_list C)).

(** ** Store and model objects *)

Abbreviation loc := nat.

Record store : Type := Store {
  sets : gmap loc (gset symbol);
  lists : gmap loc (list (list symbol))
}.

(** [s.add(x)] on the set object at [l]. *)
Definition set_add (l : loc) (x : symbol) (σ : store) : store :=
  {| sets := <[l := {[x]} ∪ (sets σ !!! l)]> (sets σ); lists := lists σ |}.

Abbreviation table := (gmap symbol (gmap symbol Q)).

(** The class of the object, which selects [estimate_probs]; the discounting
    class carries its attribute [d]. *)
Inductive estimator : Type :=
  | Additive
  | Absdisc (d : Q).

Record Phoneme_LM : Type := Model {
  cls : estimator;
  UCOUNTS : gmap symbol nat;
  BCOUNTS : gmap bigram nat;
  phoneme_set : loc;
  P : table
}.

(** [P[ph1][ph2] = v] on a [defaultdict(defaultdict)]. *)
Definition setitem2 (P : table) (ph1 ph2 : symbol) (v : Q) : table :=
  <[ph1 := <[ph2 := v]> (default ∅ (P !! ph1))]> P.

(** [P[ph1][ph2]]: the inner dictionary has no default factory. *)
Definition getitem2 (P : table) (ph1 ph2 : symbol) : result Q :=
  match P !! ph1 with
  | Some row =>
      match row !! ph2 with
      | Some p => Ok p
      | None => Err KeyError
      end
  | None => Err KeyError
  end.

(** ** Count extraction (Phoneme_LM.__init__, lines 22-36) *)

Definition Ugrams (ipa_trans : list symbol) : result (list symbol) :=
  list_comp (λ i, getitem ipa_trans (i - 1)) (range 1 (length ipa_trans)).

Definition Bgrams (ipa_trans : list symbol) : result (list bigram) :=
  list_comp (λ i, a ← getitem ipa_trans (i - 1);
                  b ← getitem ipa_trans i;
                  Ok (a, b))
            (range 1 (length ipa_trans)).

Definition extract_grams (corpus : list (list symbol))
  : result (list symbol * list bigram) :=
  foldM (λ acc ipa_trans,
           us ← Ugrams ipa_trans;
           bs ← Bgrams ipa_trans;
           Ok (acc.1 ++ us, acc.2 ++ bs))
        ([], []) corpus.

(** ** Additive smoothing (Phoneme_LM.estimate_probs) *)

Definition additive_probs (U : gmap symbol nat) (B : gmap bigram nat)
    (V : gset symbol) : result table :=
  let L := size V in
  foldM (λ P ph1,
           let Nu := count_of U ph1 in
           foldM (λ P ph2,
                    let Nb := count_of B (ph1, ph2) in
                    v ← pydiv (Qnat (Nb + 1)) (Qnat (Nu + L));
                    Ok (setitem2 P ph1 ph2 v))
                 P (elements V))
        ∅ (elements V).

(** ** Absolute discounting (Absdisc_Phoneme_LM.estimate_probs) *)

(** Lines 140-144, repeated verbatim as lines 158-162. *)
Definition unigram_prob (d : Q) (U : gmap symbol nat) (L : nat)
    (ph2 : symbol) : result Q :=
  let Ni := count_of U ph2 in
  let N := sum_values U in
  let nPlus_i := count_keys U (λ kv, bool_decide (0 < kv.2)) in
  q ← pydiv d (Qnat N);
  let Zi := (q * Qnat nPlus_i)%Q in
  a ← pydiv (pymax0 (Qnat Ni - d)) (Qnat N);
  r ← pydiv 1 (Qnat L);
  Ok (a + Zi * r)%Q.

Definition absdisc_probs (d : Q) (U : gmap symbol nat) (B : gmap bigram nat)
    (V : gset symbol) : result table :=
  let L := size V in
  foldM (λ P ph1,
           let Nh := count_of U ph1 in
           if bool_decide (Nh = 0) then
             foldM (λ P ph2,
                      uniP ← unigram_prob d U L ph2;
                      Ok (setitem2 P ph1 ph2 uniP))
                   P (elements V)
           else
             let nPlus_h := count_keys B (λ kv, bool_decide (kv.1.1 = ph1)) in
             q ← pydiv d (Qnat Nh);
             let Zh := (q * Qnat nPlus_h)%Q in
             foldM (λ P ph2,
                      let Nb := count_of B (ph1, ph2) in
                      uniP ← unigram_prob d U L ph2;
                      a ← pydiv (pymax0 (Qnat Nb - d)) (Qnat Nh);
                      Ok (setitem2 P ph1 ph2 (a + Zh * uniP)%Q))
                   P (elements V))
        ∅ (elements V).

(** ** Construction *)

(** [self.estimate_probs()]: dispatch on the class of [self]; the phoneme set
    is read through the reference the model holds. *)
Definition estimate_probs (self : Phoneme_LM) (σ : store)
  : result Phoneme_LM :=
  let V := sets σ !!! phoneme_set self in
  P' ← match cls self with
       | Additive => additive_probs (UCOUNTS self) (BCOUNTS self) V
       | Absdisc d => absdisc_probs d (UCOUNTS self) (BCOUNTS self) V
       end;
  Ok {| cls := cls self; UCOUNTS := UCOUNTS self; BCOUNTS := BCOUNTS self;
        phoneme_set := phoneme_set self; P := P' |}.

(** The statements of [Phoneme_LM.__init__] before [self.estimate_probs()]:
    counting, aliasing the caller's set, adding the unknown symbol. *)
Definition init_fields (c : estimator) (corpus phoneme_set : loc)
    (unk : bool) (σ : store) : result Phoneme_LM * store :=
  match extract_grams (lists σ !!! corpus) with
  | Err e => (Err e, σ)
  | Ok (ph_Ugrams, ph_Bgrams) =>
      let self := {| cls := c;
                     UCOUNTS := Counter ph_Ugrams;
                     BCOUNTS := Counter ph_Bgrams;
                     phoneme_set := phoneme_set;
                     P := ∅ |} in
      (Ok self, if unk then set_add phoneme_set "$" σ else σ)
  end.

(** [Phoneme_LM.__init__(self, corpus, phoneme_set, unk)] run on an object
    of class [c]. *)
Definition base_init (c : estimator) (corpus phoneme_set : loc)
    (unk : bool) (σ : store) : result Phoneme_LM * store :=
  match init_fields c corpus phoneme_set unk σ with
  | (Ok self, σ1) => (estimate_probs self σ1, σ1)
  | (Err e, σ1) => (Err e, σ1)
  end.

(** [Phoneme_LM(corpus, phoneme_set, unk)] *)
Definition Phoneme_LM_new (corpus phoneme_set : loc) (unk : bool)
    (σ : store) : result Phoneme_LM * store :=
  base_init Additive corpus phoneme_set unk σ.

(** [Absdisc_Phoneme_LM(corpus, phoneme_set, unk, d)]: the base constructor
    is called with the literal [unk=True], then the table is estimated a
    second time. *)
Definition Absdisc_Phoneme_LM_new (corpus phoneme_set : loc) (unk : bool)
    (d : Q) (σ : store) : result Phoneme_LM * store :=
  match base_init (Absdisc d) corpus phoneme_set true σ with
  | (Ok self, σ1) => (estimate_probs self σ1, σ1)
  | (Err e, σ1) => (Err e, σ1)
  end.

(** Either constructor. *)
Definition new_model (c : estimator) (corpus phoneme_set : loc) (unk : bool)
    (σ : store) : result Phoneme_LM * store :=
  match c with
  | Additive => Phoneme_LM_new corpus phoneme_set unk σ
  | Absdisc d => Absdisc_Phoneme_LM_new corpus phoneme_set unk d σ
  end.

(** ** Evaluation *)

(** [logP(self, ph1, ph2)] *)
Definition logP (self : Phoneme_LM) (ph1 ph2 : symbol) : result R :=
  p ← getitem2 (P self) ph1 ph2;
  pylog2 (Q2R p).

(** The two nested loops of [perplexity]: the state is [(logProbs, M)]. *)
Definition perplexity_loop (self : Phoneme_LM) (V : gset symbol)
    (test_corpus : list (list symbol)) : result (R * nat) :=
  foldM (λ acc word,
           foldM (λ acc i,
                    ph_h ← getitem word (i - 1);
                    ph_i ← getitem word i;
                    let ph_h := if bool_decide (ph_h ∉ V) then "$" else ph_h in
                    let ph_i := if bool_decide (ph_i ∉ V) then "$" else ph_i in
                    lp ← logP self ph_h ph_i;
                    Ok ((acc.1 + lp)%R, acc.2 + 1))
                 acc (range 1 (length word)))
        (0%R, 0) test_corpus.

(** [perplexity(self, test_corpus)] *)
Definition perplexity (self : Phoneme_LM) (σ : store)
    (test_corpus : list (list symbol)) : result R :=
  let V := sets σ !!! phoneme_set self in
  acc ← perplexity_loop self V test_corpus;
  let logProbs := acc.1 in
  let M := acc.2 in
  if bool_decide (M = 0) then Err ZeroDivisionError
  else Ok (pypow2 ((-1 / INR M) * logProbs)%R).

(** [surprisal(self, test_corpus)] *)
Definition surprisal (self : Phoneme_LM) (σ : store)
    (test_corpus : list (list symbol)) : result R :=
  pp ← perplexity self σ test_corpus;
  pylog2 pp.

(** ** The validator *)

Definition precision : Q := (1 # 10000000000)%Q.

(** [sum(P[ph1][ph2] for ph2 in phoneme_set)] *)
Definition row_sum (P : table) (ph1 : symbol) (l : list symbol) : result Q :=
  foldM (λ acc ph2, p ← getitem2 P ph1 ph2; Ok (acc + p)%Q) 0%Q l.

(** [test(self)]; printing is not modelled. *)
Definition test (self : Phoneme_LM) (σ : store) : result unit :=
  let V := sets σ !!! phoneme_set self in
  foldM (λ _ ph1,
           P_sum ← row_sum (P self) ph1 (elements V);
           if Qlt_le_dec (Qabs (1 - P_sum)) precision then Ok tt
           else Err AssertionError)
        tt (elements V).

(** * Specification-level definitions

    Closed forms of what the code computes, the quantities the statements
    below are phrased in, and the stores of the worked examples. *)

(** The adjacent pairs of a sequence, by recursion on the sequence. *)
Fixpoint adjacent (w : list symbol) : list bigram :=
  match w with
  | [] => []
  | a :: t => match t with
              | [] => []
              | b :: _ => (a, b) :: adjacent t
              end
  end.

(** All bigrams of a corpus, in order. *)
Definition corpus_bigrams (corpus : list (list symbol)) : list bigram :=
  concat (adjacent <$> corpus).

(** Number of occurrences of [x] in [l]. *)
Definition occ `{EqDecision K} (x : K) (l : list K) : nat :=
  length (filter (λ y, y = x) l).

(** The entry of a table, if both keys are present. *)
Definition lookup2 (P : table) (h c : symbol) : option Q :=
  row ← P !! h; row !! c.

(** One row written from a function, then a whole table. *)
Definition fill_row (f : symbol → Q) (h : symbol) (P : table)
    (l : list symbol) : table :=
  foldl (λ P c, setitem2 P h c (f c)) P l.

Definition fill_table (f : symbol → symbol → Q) (P : table)
    (hs cs : list symbol) : table :=
  foldl (λ P h, fill_row (f h) h P cs) P hs.

(** The value the additive estimator stores for [(h, c)] (line 62). *)
Definition additive_formula (U : gmap symbol nat) (B : gmap bigram nat)
    (L : nat) (h c : symbol) : Q :=
  (Qnat (count_of B (h, c) + 1) / Qnat (count_of U h + L))%Q.

(** The discounted unigram value (line 144 and line 162). *)
Definition unigram_formula (d : Q) (U : gmap symbol nat) (L : nat)
    (c : symbol) : Q :=
  (pymax0 (Qnat (count_of U c) - d) / Qnat (sum_values U)
   + d / Qnat (sum_values U)
     * Qnat (count_keys U (λ kv, bool_decide (0 < kv.2)%nat))
     * (1 / Qnat L))%Q.

(** The value the discounting estimator stores for [(h, c)] (lines 146 and
    165). *)
Definition absdisc_formula (d : Q) (U : gmap symbol nat) (B : gmap bigram nat)
    (L : nat) (h c : symbol) : Q :=
  if bool_decide (count_of U h = 0) then unigram_formula d U L c
  else (pymax0 (Qnat (count_of B (h, c)) - d) / Qnat (count_of U h)
        + d / Qnat (count_of U h)
          * Qnat (count_keys B (λ kv, bool_decide (kv.1.1 = h)))
          * unigram_formula d U L c)%Q.

(** The exact sum of [f] over a list. *)
Definition Qsum {A : Type} (f : A → Q) (l : list A) : Q :=
  foldr (λ x acc, f x + acc)%Q 0%Q l.

(** The indicator of a positive count. *)
Definition positive (n : nat) : nat := if bool_decide (0 < n) then 1 else 0.

(** The phoneme set after construction with flag [unk]. *)
Definition vocabulary (unk : bool) (V : gset symbol) : gset symbol :=
  if unk then {["$"]} ∪ V else V.

(** The store after the statements that precede estimation. *)
Definition store_after (phoneme_set : loc) (unk : bool) (σ : store) : store :=
  if unk then set_add phoneme_set "$" σ else σ.

(** The object before estimation. *)
Definition counted (c : estimator) (corpus : list (list symbol))
    (phoneme_set : loc) : Phoneme_LM :=
  {| cls := c;
     UCOUNTS := Counter (corpus_bigrams corpus).*1;
     BCOUNTS := Counter (corpus_bigrams corpus);
     phoneme_set := phoneme_set;
     P := ∅ |}.

(** The object after estimation. *)
Definition fitted (c : estimator) (corpus : list (list symbol))
    (phoneme_set : loc) (V : gset symbol) : Phoneme_LM :=
  let U := Counter (corpus_bigrams corpus).*1 in
  let B := Counter (corpus_bigrams corpus) in
  {| cls := c;
     UCOUNTS := U;
     BCOUNTS := B;
     phoneme_set := phoneme_set;
     P := fill_table
            match c with
            | Additive => additive_formula U B (size V)
            | Absdisc d => absdisc_formula d U B (size V)
            end ∅ (elements V) (elements V) |}.

(** The caller holds the vocabulary [{a, b, #, @}] at location 0 and the
    corpus [[["#", "a", "b", "@"]]] at location 1. *)
Definition example_store : store :=
  {| sets := {[ 0 := {[ "a"; "b"; "#"; "@" ]} ]};
     lists := {[ 1 := [["#"; "a"; "b"; "@"]] ]} |}.

(** The caller holds the vocabulary [{a}] at location 0 and an empty corpus
    at location 1. *)
Definition empty_corpus_store : store :=
  {| sets := {[ 0 := {[ "a" ]} ]};
     lists := {[ 1 := [] ]} |}.

(** An exception that reports a rejected input or a failed check, as
    opposed to one raised by an arithmetic operation or a lookup. *)
Definition is_validation_error (e : exn) : bool :=
  match e with
  | ValueError | AssertionError => true
  | ZeroDivisionError | KeyError | IndexError => false
  end.

(** The positions [i] of [range(1, len(w))] at which the adjacent pair
    [(w[i-1], w[i])] is [(a, b)], and those at which [w[i-1]] is [a]. *)
Definition bigram_positions (w : list symbol) (a b : symbol) : list nat :=
  filter (λ i, w !! (i - 1) = Some a ∧ w !! i = Some b) (range 1 (length w)).

Definition history_positions (w : list symbol) (a : symbol) : list nat :=
  filter (λ i, w !! (i - 1) = Some a) (range 1 (length w)).

(** The out-of-vocabulary mapping of one symbol. *)
Definition remap (V : gset symbol) (s : symbol) : symbol :=
  if bool_decide (s ∈ V) then s else "$".

(** One step of the evaluation loop on an adjacent pair, each position
    mapped on its own. *)
Definition score (self : Phoneme_LM) (V : gset symbol) (acc : R * nat)
    (p : bigram) : result (R * nat) :=
  lp ← logP self (remap V p.1) (remap V p.2);
  Ok ((acc.1 + lp)%R, acc.2 + 1).

(** The model of the worked example, built with [unk=False]. *)
Definition example_model : Phoneme_LM :=
  fitted Additive [["#"; "a"; "b"; "@"]] 0 {[ "a"; "b"; "#"; "@" ]}.

(** The discount of the data model: a constant between 0 and 1. *)
Definition discount_in_range (c : estimator) : Prop :=
  match c with
  | Additive => True
  | Absdisc d => (0 <= d)%Q ∧ (d <= 1)%Q
  end.

(** Every symbol of the corpus lies in [V]. *)
Definition corpus_closed (corpus : list (list symbol)) (V : gset symbol)
  : Prop :=
  Forall (Forall (λ x, x ∈ V)) corpus.

(** The number of distinct symbols with a positive unigram count. *)
Definition distinct_histories (U : gmap symbol nat) : nat :=
  size (filter (λ s, 0 < count_of U s) (dom U)).

(** The number of distinct symbols [c'] with [count(h, c') > 0]; the symbols
    range over everything that occurs as a continuation. *)
Definition distinct_continuations (B : gmap bigram nat) (h : symbol) : nat :=
  size (filter (λ c', 0 < count_of B (h, c'))
          (set_map snd (dom B) : gset symbol)).

(** A model whose table can score every bigram over its vocabulary: the
    unknown symbol is in the vocabulary and every entry over the vocabulary
    is a probability greater than 0. *)
Definition scorable (self : Phoneme_LM) (σ : store) : Prop :=
  let V := sets σ !!! phoneme_set self in
  "$" ∈ V
  ∧ ∀ h c, h ∈ V → c ∈ V →
      ∃ p, lookup2 (P self) h c = Some p ∧ (0 < p)%Q ∧ (p <= 1)%Q.

(** A discount that redistributes some mass: greater than 0, at most 1. *)
Definition discount_positive (c : estimator) : Prop :=
  match c with
  | Additive => True
  | Absdisc d => (0 < d)%Q ∧ (d <= 1)%Q
  end.

(** The store in which the corpus object at [ℓc] holds only its sequences
    of two symbols or more. *)
Definition without_short_sequences (ℓc : loc) (σ : store) : store :=
  {| sets := sets σ;
     lists := <[ℓc := filter (λ w, 2 ≤ length w) (lists σ !!! ℓc)]> (lists σ) |}.

(** * The corpus reader and the report (phonemic_similarity.py)

    A Python [str] is a list of characters.  The character type is a
    parameter: [isspace] is [str.isspace] on one character, and the four
    characters the script writes are named.  A file is the list of its
    lines. *)

Class Charset (char : Type) `{Countable char} : Type := {
  isspace : char → bool;
  TAB : char;
  SPACE : char;
  HASH : char;
  AT : char;
  isspace_TAB : isspace TAB = true;
  isspace_SPACE : isspace SPACE = true;
  isspace_HASH : isspace HASH = false;
  isspace_AT : isspace AT = false
}.

(** Bytes read as the code points 0 to 255. *)
#[global] Program Instance ascii_charset : Charset ascii := {|
  isspace c := bool_decide (nat_of_ascii c ∈ [9; 10; 11; 12; 13; 28; 29; 30; 31; 32; 133; 160]);
  TAB := ascii_of_nat 9;
  SPACE := ascii_of_nat 32;
  HASH := ascii_of_nat 35;
  AT := ascii_of_nat 64
|}.
Next Obligation. done. Qed.
Next Obligation. done. Qed.
Next Obligation. done. Qed.
Next Obligation. done. Qed.

(** [s.lstrip()] and [s.strip()] *)
Fixpoint lstrip `{Charset char} (s : list char) : list char :=
  match s with
  | [] => []
  | c :: s' => if isspace c then lstrip s' else s
  end.

Definition strip `{Charset char} (s : list char) : list char :=
  reverse (lstrip (reverse (lstrip s))).

(** [s.split(sep)] for a separator of one character: empty fields are
    kept, and the empty string has one empty field. *)
Fixpoint split_on `{EqDecision char} (sep : char) (s : list char)
  : list (list char) :=
  match s with
  | [] => [[]]
  | c :: s' =>
      if decide (c = sep) then [] :: split_on sep s'
      else match split_on sep s' with
           | [] => [[c]]
           | f :: fs => (c :: f) :: fs
           end
  end.

(** [s.split()]: the maximal runs of characters that are not whitespace;
    [cur] is the run being read, last character first. *)
Fixpoint split_ws_from `{Charset char} (cur : list char) (s : list char)
  : list (list char) :=
  match s with
  | [] => match cur with
          | [] => []
          | _ :: _ => [reverse cur]
          end
  | c :: s' =>
      if isspace c then
        match cur with
        | [] => split_ws_from [] s'
        | _ :: _ => reverse cur :: split_ws_from [] s'
        end
      else split_ws_from (c :: cur) s'
  end.

Definition split_ws `{Charset char} (s : list char) : list (list char) :=
  split_ws_from [] s.

(** The body of the loop of [read_data] on one line: [dataset] is the
    [defaultdict(list)] built so far. *)
Definition read_line `{Charset char} (LangIDs : list (list char))
    (dataset : gmap (list char) (list (list (list char))))
    (line : list char)
  : result (gmap (list char) (list (list (list char)))) :=
  let instance := split_on TAB (strip line) in
  ID ← getitem instance 0;
  transcription ← getitem instance 3;
  if bool_decide (ID ∈ LangIDs) then
    let transcription := [HASH; SPACE] ++ transcription ++ [SPACE; AT] in
    let transcription := split_ws transcription in
    if bool_decide (length transcription < 4) then Ok dataset
    else Ok (<[ID := (dataset !!! ID) ++ [transcription]]> dataset)
  else Ok dataset.

(** [read_data(path_to_file, LangIDs)], on the lines of the file. *)
Definition read_data `{Charset char} (file : list (list char))
    (LangIDs : list (list char))
  : result (gmap (list char) (list (list (list char)))) :=
  foldM (read_line LangIDs) ∅ file.

(** The word a line contributes, and the language it is filed under: the
    transcription is bracketed by the two markers and kept when it holds
    two phonemes or more. *)
Definition line_entry `{Charset char} (LangIDs : list (list char))
    (line : list char) : option (list char * list (list char)) :=
  let instance := split_on TAB (strip line) in
  ID ← instance !! 0;
  t ← instance !! 3;
  if bool_decide (ID ∈ LangIDs ∧ 2 ≤ length (split_ws t))
  then Some (ID, [HASH] :: split_ws t ++ [[AT]])
  else None.

(** The words filed under [ID] by a list of lines, in the order of the
    lines. *)
Definition words_of `{Charset char} (LangIDs file : list (list char))
    (ID : list char) : list (list (list char)) :=
  (λ e, e.2) <$> filter (λ e, e.1 = ID) (omap (line_entry LangIDs) file).

(** A file of three lines: a Russian word of two phonemes, a German word,
    and a Russian word of one phoneme. *)
Definition example_file : list (list ascii) :=
  [ list_ascii_of_string "rus" ++ [TAB] ++ list_ascii_of_string "w"
      ++ [TAB] ++ list_ascii_of_string "o" ++ [TAB]
      ++ list_ascii_of_string "a b" ++ [ascii_of_nat 10];
    list_ascii_of_string "deu" ++ [TAB] ++ list_ascii_of_string "w"
      ++ [TAB] ++ list_ascii_of_string "o" ++ [TAB]
      ++ list_ascii_of_string "x y z" ++ [ascii_of_nat 10];
    list_ascii_of_string "rus" ++ [TAB] ++ list_ascii_of_string "w"
      ++ [TAB] ++ list_ascii_of_string "o" ++ [TAB]
      ++ list_ascii_of_string "q" ++ [ascii_of_nat 10] ].

Definition example_dataset : gmap (list ascii) (list (list (list ascii))) :=
  {[ list_ascii_of_string "rus"
     := [[list_ascii_of_string "#"; list_ascii_of_string "a";
          list_ascii_of_string "b"; list_ascii_of_string "@"]] ]}.

(** ** The report (phonemic_similarity.py, lines 6-10 and 48-72)

    The datasets are those [read_data] returns, each Python [str] taken as
    a symbol.  A [defaultdict] read at a missing key gives the empty list
    or the empty set.  Every language has a corpus object and a set object
    of its own, which are modelled as a store per language.  Printing is
    not modelled: the report is the list of the rows printed. *)

Definition TGT_LIDs : list string :=
  ["rus"; "ukr"; "pol"; "ces"; "slk"; "bul"; "slv";
   "deu"; "swe"; "fra"; "spa"; "ara"; "zho"].

Definition TRN_LIDs : list string := ["rus"; "bul"; "pol"].

(** [set(phoneme_seq[L])], where [phoneme_seq[L]] was extended with every
    word of [L] in turn. *)
Definition phoneme_set_of (T : list (list symbol)) : gset symbol :=
  list_to_set (concat T).

(** The corpus of a language at location 1 and its phoneme set at
    location 0. *)
Definition language_store (T : list (list symbol)) : store :=
  {| sets := {[ 0 := phoneme_set_of T ]}; lists := {[ 1 := T ]} |}.

(** The two nested loops of lines 66-72. *)
Definition report (train_data test_data : gmap string (list (list symbol)))
  : result (list (string * string * R)) :=
  foldM (λ rows LID,
           match Absdisc_Phoneme_LM_new 1 0 true (1 # 2)
                   (language_store (train_data !!! LID)) with
           | (Ok phoneLM, σ) =>
               foldM (λ rows LID_2,
                        s ← surprisal phoneLM σ (test_data !!! LID_2);
                        Ok (rows ++ [(LID, LID_2, s)]))
                     rows TGT_LIDs
           | (Err e, _) => Err e
           end)
        [] TRN_LIDs.

(** A corpus with a sequence of two symbols or more. *)
Definition has_bigram (corpus : list (list symbol)) : Prop :=
  Exists (λ w, 2 ≤ length w) corpus.

(** Every training language and every target language has such a corpus. *)
Definition all_languages_covered
    (train_data test_data : gmap string (list (list symbol))) : Prop :=
  Forall (λ LID, has_bigram (train_data !!! LID)) TRN_LIDs
  ∧ Forall (λ LID, has_bigram (test_data !!! LID)) TGT_LIDs.

(** Datasets with one word for every language. *)
Definition example_train_data : gmap string (list (list symbol)) :=
  list_to_map ((λ LID, (LID, [["#"; "a"; "b"; "@"]])) <$> TRN_LIDs).

Definition example_test_data : gmap string (list (list symbol)) :=
  list_to_map ((λ LID, (LID, [["#"; "b"; "x"; "@"]])) <$> TGT_LIDs).

(** A dataset as [read_data] returns it: no language is filed with an empty
    list, and every word has four symbols or more. *)
Definition as_read (d : gmap string (list (list symbol))) : Prop :=
  ∀ ID ws, d !! ID = Some ws → ws ≠ [] ∧ Forall (λ w, 4 ≤ length w) ws.

(** * Properties *)

(** ** The error monad and loops *)

Lemma foldM_app {S A : Type} (body : S → A → result S) (s : S)
    (l1 l2 : list A) :
  foldM body s (l1 ++ l2) = (s' ← foldM body s l1; foldM body s' l2).
Proof.
  revert s. induction l1 as [|x l1 IH]; intros s; simpl; [done|].
  destruct (body s x) as [s'|e]; simpl; [apply IH | done].
Qed.

(** A loop whose body never raises is a plain left fold. *)
Lemma foldM_pure {S A : Type} (body : S → A → result S) (f : S → A → S)
    (l : list A) (s : S) :
  (∀ s x, x ∈ l → body s x = Ok (f s x)) →
  foldM body s l = Ok (foldl f s l).
Proof.
  revert s. induction l as [|x l IH]; intros s Hb; simpl; [done|].
  rewrite Hb by left. simpl. apply IH. intros s' y Hy. apply Hb. by right.
Qed.

(** A non-empty loop whose body always raises [e] raises [e]. *)
Lemma foldM_raise {S A : Type} (body : S → A → result S) (e : exn)
    (l : list A) (s : S) :
  l ≠ [] → (∀ s x, body s x = Err e) → foldM body s l = Err e.
Proof. destruct l as [|x l]; [done|]. intros _ Hb. simpl. by rewrite Hb. Qed.

Lemma list_comp_pure {A B : Type} (e : A → result B) (f : A → B)
    (l : list A) :
  (∀ x, x ∈ l → e x = Ok (f x)) → list_comp e l = Ok (f <$> l).
Proof.
  induction l as [|x l IH]; intros He; simpl; [done|].
  rewrite He by left. simpl. rewrite IH; [done|].
  intros y Hy. apply He. by right.
Qed.

(** ** Adjacent pairs *)

Lemma length_adjacent (w : list symbol) : length (adjacent w) = length w - 1.
Proof.
  induction w as [|a [|b t] IH]; simpl in *; [done..|]. rewrite IH. lia.
Qed.

Lemma adjacent_lookup (w : list symbol) (j : nat) (a b : symbol) :
  adjacent w !! j = Some (a, b) ↔ w !! j = Some a ∧ w !! (S j) = Some b.
Proof.
  revert j. induction w as [|x [|y t] IH]; intros j.
  - simpl. rewrite !lookup_nil. split; [done|by intros [? _]].
  - destruct j as [|j]; simpl.
    + split; [done|by intros [_ ?]].
    + rewrite !lookup_nil. split; [done|by intros [? _]].
  - destruct j as [|j].
    + simpl. split; [by intros [= -> ->]|by intros [[= ->] [= ->]]].
    + change (adjacent (x :: y :: t) !! S j) with (adjacent (y :: t) !! j).
      rewrite IH. done.
Qed.

Lemma range_1_seq (n : nat) : range 1 n = S <$> seq 0 (n - 1).
Proof. unfold range. by rewrite fmap_S_seq. Qed.

Lemma Bgrams_adjacent (w : list symbol) : Bgrams w = Ok (adjacent w).
Proof.
  unfold Bgrams.
  assert (∀ i, i ∈ range 1 (length w) →
    (a ← getitem w (i - 1); b ← getitem w i; Ok (a, b))
    = Ok (default ("", "") (adjacent w !! (i - 1)))) as Hpure.
  { intros i Hi. unfold range in Hi. apply elem_of_seq in Hi.
    destruct (lookup_lt_is_Some_2 (adjacent w) (i - 1)) as [[a b] Hab].
    { rewrite length_adjacent. lia. }
    rewrite Hab. apply adjacent_lookup in Hab as [Ha Hb].
    replace (S (i - 1)) with i in Hb by lia.
    unfold getitem. rewrite Ha. simpl. rewrite Hb. done. }
  rewrite (list_comp_pure _ _ _ Hpure). f_equal.
  rewrite range_1_seq, <- list_fmap_compose.
  apply list_eq. intros j. rewrite list_lookup_fmap.
  destruct (decide (j < length w - 1)) as [Hj|Hj].
  - rewrite lookup_seq_lt by done. simpl.
    replace (j - 0) with j by lia.
    destruct (lookup_lt_is_Some_2 (adjacent w) j) as [p Hp].
    { by rewrite length_adjacent. }
    by rewrite Hp.
  - rewrite lookup_seq_ge by lia. simpl. symmetry.
    apply lookup_ge_None. rewrite length_adjacent. lia.
Qed.

Lemma Ugrams_adjacent (w : list symbol) : Ugrams w = Ok ((adjacent w).*1).
Proof.
  unfold Ugrams.
  assert (∀ i, i ∈ range 1 (length w) →
    getitem w (i - 1) = Ok (default "" (fst <$> adjacent w !! (i - 1))))
    as Hpure.
  { intros i Hi. unfold range in Hi. apply elem_of_seq in Hi.
    destruct (lookup_lt_is_Some_2 (adjacent w) (i - 1)) as [[a b] Hab].
    { rewrite length_adjacent. lia. }
    rewrite Hab. apply adjacent_lookup in Hab as [Ha Hb].
    unfold getitem. by rewrite Ha. }
  rewrite (list_comp_pure _ _ _ Hpure). f_equal.
  rewrite range_1_seq, <- list_fmap_compose.
  apply list_eq. intros j. rewrite !list_lookup_fmap.
  destruct (decide (j < length w - 1)) as [Hj|Hj].
  - rewrite lookup_seq_lt by done. simpl.
    replace (j - 0) with j by lia.
    destruct (lookup_lt_is_Some_2 (adjacent w) j) as [p Hp].
    { by rewrite length_adjacent. }
    by rewrite Hp.
  - rewrite lookup_seq_ge by lia. simpl. symmetry.
    rewrite (proj2 (lookup_ge_None (adjacent w) j)); [done|].
    rewrite length_adjacent. lia.
Qed.

Lemma extract_grams_from (corpus : list (list symbol))
    (us : list symbol) (bs : list bigram) :
  foldM (λ acc ipa_trans,
           us ← Ugrams ipa_trans;
           bs ← Bgrams ipa_trans;
           Ok (acc.1 ++ us, acc.2 ++ bs))
        (us, bs) corpus
  = Ok (us ++ (corpus_bigrams corpus).*1, bs ++ corpus_bigrams corpus).
Proof.
  revert us bs. induction corpus as [|w corpus IH]; intros us bs.
  - unfold corpus_bigrams. simpl. by rewrite !app_nil_r.
  - simpl. rewrite Ugrams_adjacent, Bgrams_adjacent. simpl.
    rewrite IH. unfold corpus_bigrams. simpl.
    by rewrite fmap_app, !app_assoc.
Qed.

(** Count extraction never raises. *)
Lemma extract_grams_total (corpus : list (list symbol)) :
  extract_grams corpus
  = Ok ((corpus_bigrams corpus).*1, corpus_bigrams corpus).
Proof. unfold extract_grams. by rewrite extract_grams_from. Qed.

(** ** Counters *)

Section counters.
Context `{Countable K}.
Implicit Types (l : list K) (C : gmap K nat) (x k : K).

Lemma occ_nil x : occ x [] = 0.
Proof. done. Qed.

Lemma occ_cons x y l :
  occ x (y :: l) = (if decide (y = x) then 1 else 0) + occ x l.
Proof. unfold occ. rewrite filter_cons. by destruct (decide (y = x)). Qed.

Lemma occ_app x l1 l2 : occ x (l1 ++ l2) = occ x l1 + occ x l2.
Proof. unfold occ. by rewrite filter_app, length_app. Qed.

Lemma occ_pos x l : 0 < occ x l ↔ x ∈ l.
Proof.
  induction l as [|y l IH]; [rewrite occ_nil; split; [lia|by inversion 1]|].
  rewrite occ_cons, elem_of_cons.
  destruct (decide (y = x)) as [->|Hne]; [split; [auto|lia]|].
  rewrite <- IH. split; [intros; right; lia|intros [?|?]; [congruence|lia]].
Qed.

Lemma Counter_from C l x :
  foldl (λ m y, <[y := S (default 0 (m !! y))]> m) C l !! x
  = if decide (occ x l = 0) then C !! x
    else Some (default 0 (C !! x) + occ x l).
Proof.
  revert C. induction l as [|y l IH]; intros C; [done|].
  simpl. rewrite IH, occ_cons.
  destruct (decide (y = x)) as [->|Hne].
  - rewrite lookup_insert_eq. simpl.
    destruct (decide (occ x l = 0)) as [->|?]; f_equal; lia.
  - rewrite lookup_insert_ne by done. done.
Qed.

Lemma Counter_lookup l x :
  Counter l !! x = if decide (occ x l = 0) then None else Some (occ x l).
Proof.
  unfold Counter. rewrite Counter_from, lookup_empty. by case_decide.
Qed.

Lemma count_of_Counter l x : count_of (Counter l) x = occ x l.
Proof.
  unfold count_of. rewrite Counter_lookup. by case_decide.
Qed.

(** A Counter built from a list stores positive counts only. *)
Lemma Counter_positive l x n : Counter l !! x = Some n → 0 < n.
Proof. rewrite Counter_lookup. case_decide; [done|]. intros [= <-]. lia. Qed.

Lemma Counter_dom l x : is_Some (Counter l !! x) ↔ x ∈ l.
Proof.
  rewrite Counter_lookup, <- occ_pos.
  case_decide; split; try lia; try (intros []; done); eauto.
Qed.

Lemma Counter_nil : Counter ([] : list K) = ∅.
Proof. done. Qed.
End counters.

(** Summing an indicator over a list counts the elements it selects. *)
Lemma sum_indicator {A : Type} (c : A → bool) (l : list A) :
  sum_list ((λ _, 1) <$> filter (λ x, c x = true) l)
  = sum_list_with (λ x, if c x then 1 else 0) l.
Proof.
  induction l as [|x l IH]; [done|].
  rewrite filter_cons. destruct (c x) eqn:Hc.
  - rewrite decide_True by done. cbn [fmap list_fmap sum_list_with].
    rewrite Hc. simpl. f_equal. exact IH.
  - rewrite decide_False by done. cbn [sum_list_with]. by rewrite Hc.
Qed.

Lemma sum_list_with_ext {A : Type} (f g : A → nat) (l : list A) :
  (∀ x, x ∈ l → f x = g x) → sum_list_with f l = sum_list_with g l.
Proof.
  induction l as [|x l IH]; intros Hfg; [done|]. simpl.
  rewrite Hfg by left. rewrite IH; [done|]. intros y Hy. apply Hfg. by right.
Qed.

(** Replacing the value at one element of a duplicate-free list. *)
Lemma sum_list_with_update {A : Type} `{EqDecision A} (f g : A → nat)
    (x0 : A) (l : list A) :
  NoDup l → x0 ∈ l → (∀ x, x ≠ x0 → f x = g x) →
  sum_list_with f l + g x0 = sum_list_with g l + f x0.
Proof.
  intros Hnd Hin Hfg. induction Hnd as [|x l Hx Hnd IH]; [by inversion Hin|].
  simpl. destruct (decide (x = x0)) as [->|Hne].
  - rewrite (sum_list_with_ext f g l); [lia|].
    intros y Hy. apply Hfg. intros ->. done.
  - rewrite (Hfg x Hne). apply elem_of_cons in Hin as [?|Hin]; [congruence|].
    specialize (IH Hin). lia.
Qed.

(** Summing a function of the counts over a duplicate-free list of queries
    [l] equals summing it over the entries of the counter selected by
    [cond], when [cond] selects exactly the entries that some query reads. *)
Lemma sum_over_queries {A : Type} `{EqDecision A} `{Countable K}
    (key : A → K) `{!Inj (=) (=) key} (g : nat → nat) (cond : K → bool)
    (l : list A) (C : gmap K nat) :
  g 0 = 0 → NoDup l →
  (∀ k, is_Some (C !! k) → (cond k = true ↔ ∃ x, x ∈ l ∧ key x = k)) →
  sum_list_with (λ x, g (count_of C (key x))) l
  = sum_list_with (λ kv, if cond kv.1 then g kv.2 else 0) (map_to_list C).
Proof.
  intros Hg Hnd. induction C as [|k v C Hk IH] using map_ind; intros Hcond.
  - rewrite map_to_list_empty. simpl.
    rewrite (sum_list_with_ext _ (λ _, 0)).
    + clear. induction l; [done|]. simpl. done.
    + intros x _. unfold count_of. by rewrite lookup_empty.
  - rewrite map_to_list_insert by done. simpl.
    rewrite <- IH.
    2:{ intros k' Hk'. apply Hcond.
        destruct (decide (k = k')) as [->|?];
          [by rewrite lookup_insert_eq | by rewrite lookup_insert_ne]. }
    specialize (Hcond k). rewrite lookup_insert_eq in Hcond.
    specialize (Hcond (ltac:(eauto))).
    destruct (cond k) eqn:Hck.
    + destruct (proj1 Hcond eq_refl) as (x0 & Hx0 & Hkey).
      assert (count_of (<[k:=v]> C) (key x0) = v) as Hnew.
      { unfold count_of. by rewrite Hkey, lookup_insert_eq. }
      assert (count_of C (key x0) = 0) as Hold.
      { unfold count_of. by rewrite Hkey, Hk. }
      pose proof (sum_list_with_update
        (λ x, g (count_of (<[k:=v]> C) (key x)))
        (λ x, g (count_of C (key x))) x0 l Hnd Hx0) as Hupd.
      cbv beta in Hupd. rewrite Hnew, Hold, Hg in Hupd.
      rewrite Nat.add_0_r in Hupd. rewrite Hupd; [lia|].
      intros x Hx. unfold count_of. rewrite lookup_insert_ne; [done|].
      intros Heq. apply Hx. apply (inj key). congruence.
    + simpl. apply sum_list_with_ext. intros x Hx.
      unfold count_of. rewrite lookup_insert_ne; [done|].
      intros Heq. destruct Hcond as [_ Hc].
      assert (false = true) as Habs by (apply Hc; eauto). done.
Qed.

(** ** Probability tables *)

Lemma getitem2_lookup2 (P : table) (h c : symbol) :
  getitem2 P h c = match lookup2 P h c with
                   | Some p => Ok p
                   | None => Err KeyError
                   end.
Proof.
  unfold getitem2, lookup2. destruct (P !! h) as [row|]; simpl; [|done].
  by destruct (row !! c).
Qed.

Lemma lookup2_empty (h c : symbol) : lookup2 ∅ h c = None.
Proof. unfold lookup2. by rewrite lookup_empty. Qed.

Lemma lookup2_setitem2 (P : table) (h c h' c' : symbol) (v : Q) :
  lookup2 (setitem2 P h c v) h' c'
  = if decide (h' = h ∧ c' = c) then Some v else lookup2 P h' c'.
Proof.
  unfold lookup2, setitem2.
  destruct (decide (h' = h)) as [->|Hh].
  - rewrite lookup_insert_eq. simpl.
    destruct (decide (c' = c)) as [->|Hc].
    + rewrite lookup_insert_eq. by rewrite decide_True.
    + rewrite lookup_insert_ne by done.
      rewrite decide_False by (intros []; done).
      destruct (P !! h); simpl; [done|]. by rewrite lookup_empty.
  - rewrite lookup_insert_ne by done.
    by rewrite decide_False by (intros []; done).
Qed.

Lemma lookup2_fill_row (f : symbol → Q) (h : symbol) (P : table)
    (l : list symbol) (h' c' : symbol) :
  lookup2 (fill_row f h P l) h' c'
  = if decide (h' = h ∧ c' ∈ l) then Some (f c') else lookup2 P h' c'.
Proof.
  unfold fill_row. revert P.
  induction l as [|c l IH]; intros P; cbn [foldl].
  - destruct (decide (h' = h ∧ c' ∈ [])) as [[_ Hin]|_]; [|done].
    by inversion Hin.
  - rewrite IH, lookup2_setitem2.
    destruct (decide (h' = h ∧ c' ∈ l)) as [[-> Hin]|H1].
    + rewrite decide_True; [done|]. split; [done|by right].
    + destruct (decide (h' = h ∧ c' = c)) as [[-> ->]|H2].
      * rewrite decide_True; [done|]. split; [done|by left].
      * rewrite decide_False; [done|]. intros [-> Hin].
        apply elem_of_cons in Hin as [->|Hin]; [by apply H2|by apply H1].
Qed.

Lemma lookup2_fill_table (f : symbol → symbol → Q) (P : table)
    (hs cs : list symbol) (h c : symbol) :
  lookup2 (fill_table f P hs cs) h c
  = if decide (h ∈ hs ∧ c ∈ cs) then Some (f h c) else lookup2 P h c.
Proof.
  unfold fill_table. revert P.
  induction hs as [|h0 hs IH]; intros P; cbn [foldl].
  - destruct (decide (h ∈ [] ∧ c ∈ cs)) as [[Hin _]|_]; [|done].
    by inversion Hin.
  - rewrite IH, lookup2_fill_row.
    destruct (decide (h ∈ hs ∧ c ∈ cs)) as [[Hh Hc]|H1].
    + rewrite decide_True; [done|]. split; [by right|done].
    + destruct (decide (h = h0 ∧ c ∈ cs)) as [[-> Hc]|H2].
      * rewrite decide_True; [done|]. split; [by left|done].
      * rewrite decide_False; [done|]. intros [Hh Hc].
        apply elem_of_cons in Hh as [->|Hh]; [by apply H2|by apply H1].
Qed.

(** A loop that writes one row from values that are all defined. *)
Lemma foldM_fill_row (body : symbol → result Q) (f : symbol → Q)
    (h : symbol) (P : table) (l : list symbol) :
  (∀ c, c ∈ l → body c = Ok (f c)) →
  foldM (λ P c, v ← body c; Ok (setitem2 P h c v)) P l
  = Ok (fill_row f h P l).
Proof.
  intros Hb. apply foldM_pure. intros P' c Hc. by rewrite Hb.
Qed.

(** ** Rational arithmetic of the estimators *)

Lemma Qnat_0 : Qnat 0 = 0%Q.
Proof. done. Qed.

Lemma Qnat_plus (n m : nat) : (Qnat (n + m) == Qnat n + Qnat m)%Q.
Proof. unfold Qnat. by rewrite Nat2Z.inj_add, inject_Z_plus. Qed.

Lemma Qnat_nonneg (n : nat) : (0 <= Qnat n)%Q.
Proof.
  unfold Qnat. change 0%Q with (inject_Z 0). rewrite <- Zle_Qle. lia.
Qed.

Lemma Qnat_pos (n : nat) : 0 < n → (0 < Qnat n)%Q.
Proof.
  intros Hn. unfold Qnat. change 0%Q with (inject_Z 0).
  rewrite <- Zlt_Qlt. lia.
Qed.

Lemma Qnat_ge_1 (n : nat) : 0 < n → (1 <= Qnat n)%Q.
Proof.
  intros Hn. unfold Qnat. change 1%Q with (inject_Z 1).
  rewrite <- Zle_Qle. lia.
Qed.

Lemma pydiv_ok (a b : Q) : ¬ (b == 0)%Q → pydiv a b = Ok (a / b)%Q.
Proof.
  intros Hb. unfold pydiv.
  destruct (Qeq_bool b 0) eqn:E; [|done].
  by apply Qeq_bool_iff in E.
Qed.

Lemma pydiv_zero (a b : Q) : (b == 0)%Q → pydiv a b = Err ZeroDivisionError.
Proof.
  intros Hb. unfold pydiv. apply Qeq_bool_iff in Hb. by rewrite Hb.
Qed.

Lemma pydiv_Qnat_ok (a : Q) (n : nat) :
  0 < n → pydiv a (Qnat n) = Ok (a / Qnat n)%Q.
Proof.
  intros Hn. apply pydiv_ok. pose proof (Qnat_pos n Hn). lraQ.
Qed.

Lemma pymax0_pos (a : Q) : (0 <= a)%Q → pymax0 a = a.
Proof. intros Ha. unfold pymax0. destruct (Qlt_le_dec a 0); [lraQ|done]. Qed.

Lemma pymax0_neg (a : Q) : (a <= 0)%Q → (pymax0 a == 0)%Q.
Proof.
  intros Ha. unfold pymax0. destruct (Qlt_le_dec a 0); [reflexivity|lraQ].
Qed.

(** The discounted count: [d] is taken from every positive count. *)
Lemma pymax0_discount (d : Q) (n : nat) :
  (0 <= d)%Q → (d <= 1)%Q →
  (pymax0 (Qnat n - d)
   == Qnat n - d * Qnat (if bool_decide (0 < n)%nat then 1%nat else 0%nat))%Q.
Proof.
  intros Hd0 Hd1. destruct (decide (0 < n)%nat) as [Hn|Hn].
  - rewrite bool_decide_eq_true_2 by done.
    rewrite pymax0_pos; [change (Qnat 1) with 1%Q; lraQ|].
    pose proof (Qnat_ge_1 n Hn). lraQ.
  - rewrite bool_decide_eq_false_2 by done.
    assert (n = 0%nat) as -> by lia. rewrite pymax0_neg; rewrite Qnat_0; lraQ.
Qed.

(** ** The estimators in closed form *)

Lemma elements_size_pos (V : gset symbol) (x : symbol) :
  x ∈ elements V → 0 < size V.
Proof.
  intros Hx. apply elem_of_elements in Hx.
  destruct (decide (size V = 0)) as [Hz|]; [|lia].
  apply size_empty_iff in Hz. set_solver.
Qed.

(** The additive estimator never raises. *)
Lemma additive_probs_total (U : gmap symbol nat) (B : gmap bigram nat)
    (V : gset symbol) :
  additive_probs U B V
  = Ok (fill_table (additive_formula U B (size V)) ∅
          (elements V) (elements V)).
Proof.
  unfold additive_probs, fill_table. apply foldM_pure.
  intros P0 h Hh. cbv zeta. apply foldM_fill_row.
  intros c _. unfold additive_formula. apply pydiv_Qnat_ok.
  pose proof (elements_size_pos V h Hh). lia.
Qed.

Lemma count_of_le_sum_values `{Countable K} (C : gmap K nat) (k : K) :
  count_of C k ≤ sum_values C.
Proof.
  unfold count_of, sum_values. destruct (C !! k) as [n|] eqn:Hk; [|lia].
  apply elem_of_map_to_list in Hk.
  apply (sum_list_with_in n Datatypes.id).
  apply list_elem_of_fmap. by exists (k, n).
Qed.

Lemma unigram_prob_ok (d : Q) (U : gmap symbol nat) (L : nat) (c : symbol) :
  0 < sum_values U → 0 < L →
  unigram_prob d U L c = Ok (unigram_formula d U L c).
Proof.
  intros HN HL. unfold unigram_prob, unigram_formula. cbv zeta.
  rewrite !pydiv_Qnat_ok by done. done.
Qed.

Lemma unigram_prob_zero (d : Q) (U : gmap symbol nat) (L : nat) (c : symbol) :
  sum_values U = 0 → unigram_prob d U L c = Err ZeroDivisionError.
Proof.
  intros HN. unfold unigram_prob. cbv zeta. rewrite HN.
  rewrite (pydiv_zero d) by reflexivity. done.
Qed.

(** With a positive total count the discounting estimator does not raise. *)
Lemma absdisc_probs_ok (d : Q) (U : gmap symbol nat) (B : gmap bigram nat)
    (V : gset symbol) :
  0 < sum_values U →
  absdisc_probs d U B V
  = Ok (fill_table (absdisc_formula d U B (size V)) ∅
          (elements V) (elements V)).
Proof.
  intros HN. unfold absdisc_probs, fill_table. apply foldM_pure.
  intros P0 h Hh. cbv zeta.
  pose proof (elements_size_pos V h Hh) as HL.
  unfold fill_row, absdisc_formula.
  destruct (bool_decide (count_of U h = 0)) eqn:Hz.
  - apply foldM_pure. intros P1 c _. by rewrite unigram_prob_ok.
  - apply bool_decide_eq_false in Hz.
    rewrite pydiv_Qnat_ok by lia. simpl.
    apply foldM_pure. intros P1 c _. cbv zeta.
    rewrite unigram_prob_ok by done. simpl.
    rewrite pydiv_Qnat_ok by lia. done.
Qed.

(** With a zero total count and a non-empty phoneme set the first division
    [d/N] raises. *)
Lemma absdisc_probs_zero (d : Q) (U : gmap symbol nat) (B : gmap bigram nat)
    (V : gset symbol) :
  sum_values U = 0 → V ≠ ∅ →
  absdisc_probs d U B V = Err ZeroDivisionError.
Proof.
  intros HN HV. unfold absdisc_probs. cbv zeta.
  destruct (elements V) as [|h l] eqn:Hel.
  { apply elements_empty_inv in Hel. by apply leibniz_equiv in Hel. }
  cbn [foldM].
  pose proof (count_of_le_sum_values U h) as Hle.
  rewrite bool_decide_eq_true_2 by lia.
  cbn [foldM]. rewrite unigram_prob_zero by done. done.
Qed.

(** ** Exact sums *)

Section Qsum.
Context {A : Type}.
Implicit Types (f g : A → Q) (l : list A).

Lemma Qsum_ext f g l :
  (∀ x, x ∈ l → (f x == g x)%Q) → (Qsum f l == Qsum g l)%Q.
Proof.
  induction l as [|x l IH]; intros Hfg; simpl; [reflexivity|].
  rewrite (Hfg x) by left. rewrite IH; [reflexivity|].
  intros y Hy. apply Hfg. by right.
Qed.

Lemma Qsum_plus f g l :
  (Qsum (λ x, f x + g x) l == Qsum f l + Qsum g l)%Q.
Proof. induction l as [|x l IH]; simpl; [lraQ|]. rewrite IH. lraQ. Qed.

Lemma Qsum_scale_l (k : Q) f l :
  (Qsum (λ x, k * f x) l == k * Qsum f l)%Q.
Proof. induction l as [|x l IH]; simpl; [lraQ|]. rewrite IH. ring. Qed.

Lemma Qsum_scale_r (k : Q) f l :
  (Qsum (λ x, f x * k) l == Qsum f l * k)%Q.
Proof. induction l as [|x l IH]; simpl; [lraQ|]. rewrite IH. ring. Qed.

Lemma Qsum_const (k : Q) l :
  (Qsum (λ _, k) l == Qnat (length l) * k)%Q.
Proof.
  induction l as [|x l IH]; [simpl; rewrite Qnat_0; lraQ|].
  change (length (x :: l)) with (1 + length l)%nat.
  rewrite Qnat_plus. change (Qnat 1) with 1%Q. simpl. rewrite IH. ring.
Qed.

Lemma Qsum_Qnat (n : A → nat) l :
  (Qsum (λ x, Qnat (n x)) l == Qnat (sum_list_with n l))%Q.
Proof.
  induction l as [|x l IH]; simpl; [by rewrite Qnat_0|].
  rewrite Qnat_plus, IH. reflexivity.
Qed.
End Qsum.

Lemma getitem2_some (P : table) (h c : symbol) (p : Q) :
  lookup2 P h c = Some p → getitem2 P h c = Ok p.
Proof. intros Hp. by rewrite getitem2_lookup2, Hp. Qed.

(** The running sum of the validator equals the exact sum of the entries. *)
Lemma row_sum_from (P : table) (f : symbol → Q) (h : symbol)
    (l : list symbol) (acc : Q) :
  (∀ c, c ∈ l → lookup2 P h c = Some (f c)) →
  ∃ s, foldM (λ acc ph2, p ← getitem2 P h ph2; Ok (acc + p)%Q) acc l = Ok s
       ∧ (s == acc + Qsum f l)%Q.
Proof.
  revert acc. induction l as [|c l IH]; intros acc Hl; simpl.
  - exists acc. split; [done|lraQ].
  - rewrite (getitem2_some P h c (f c)) by (apply Hl; left). simpl.
    destruct (IH (acc + f c)%Q) as (s & Hs & Heq).
    { intros c' Hc'. apply Hl. by right. }
    exists s. split; [done|]. rewrite Heq. lraQ.
Qed.

Lemma row_sum_exact (P : table) (f : symbol → Q) (h : symbol)
    (l : list symbol) :
  (∀ c, c ∈ l → lookup2 P h c = Some (f c)) →
  ∃ s, row_sum P h l = Ok s ∧ (s == Qsum f l)%Q.
Proof.
  intros Hl. destruct (row_sum_from P f h l 0%Q Hl) as (s & Hs & Heq).
  exists s. split; [done|]. rewrite Heq. lraQ.
Qed.

(** ** Counting identities *)

Lemma sum_list_with_plus {A : Type} (f g : A → nat) (l : list A) :
  sum_list_with (λ x, f x + g x) l = sum_list_with f l + sum_list_with g l.
Proof. induction l as [|x l IH]; simpl; [done|]. rewrite IH. lia. Qed.

Lemma sum_list_with_zero {A : Type} (l : list A) :
  sum_list_with (λ _ : A, 0) l = 0.
Proof. induction l as [|x l IH]; simpl; done. Qed.

Lemma sum_list_fmap_with {A : Type} (f : A → nat) (l : list A) :
  sum_list (f <$> l) = sum_list_with f l.
Proof. induction l as [|x l IH]; simpl; [done|]. f_equal. exact IH. Qed.

(** An element of a duplicate-free list is hit exactly once. *)
Lemma sum_hit_once {A : Type} `{EqDecision A} (b : A) (l : list A) :
  NoDup l → b ∈ l →
  sum_list_with (λ c, if decide (b = c) then 1 else 0) l = 1.
Proof.
  intros Hnd Hb.
  pose proof (sum_list_with_update
    (λ c, if decide (b = c) then 1 else 0) (λ _, 0) b l Hnd Hb) as Hupd.
  cbv beta in Hupd. rewrite sum_list_with_zero in Hupd.
  rewrite decide_True in Hupd by done.
  assert (∀ x, x ≠ b → (if decide (b = x) then 1 else 0) = 0) as Hne.
  { intros x Hx. by rewrite decide_False. }
  specialize (Hupd Hne). lia.
Qed.

(** Under a history [h], the bigram counts over a list that holds every
    continuation add up to the history count of [h]. *)
Lemma occ_history (bs : list bigram) (h : symbol) (l : list symbol) :
  NoDup l → (∀ b, b ∈ bs → b.2 ∈ l) →
  sum_list_with (λ c, occ (h, c) bs) l = occ h bs.*1.
Proof.
  intros Hnd. induction bs as [|[a b] bs IH]; intros Hin.
  - rewrite fmap_nil, occ_nil. apply sum_list_with_zero.
  - rewrite fmap_cons, occ_cons. cbn [fst].
    rewrite (sum_list_with_ext _
      (λ c, (if decide (a = h) then if decide (b = c) then 1 else 0 else 0)
            + occ (h, c) bs)).
    2:{ intros c _. rewrite occ_cons. f_equal.
        destruct (decide (a = h)) as [->|Ha].
        - destruct (decide (b = c)) as [->|Hb].
          + by rewrite decide_True.
          + rewrite decide_False; [done|]. congruence.
        - rewrite decide_False; [done|]. congruence. }
    rewrite sum_list_with_plus, IH.
    2:{ intros b' Hb'. apply Hin. by right. }
    f_equal. destruct (decide (a = h)) as [->|Ha].
    + apply sum_hit_once; [done|]. apply (Hin (h, b)). by left.
    + apply sum_list_with_zero.
Qed.

Section count_identities.
Context `{Countable K}.
Implicit Types (C : gmap K nat) (l : list K).

(** Over a duplicate-free list that holds every key, the counts add up to
    [sum(C.values())]. *)
Lemma sum_counts C l :
  NoDup l → (∀ k, is_Some (C !! k) → k ∈ l) →
  sum_list_with (λ c, count_of C c) l = sum_values C.
Proof.
  intros Hnd Hdom. unfold sum_values. rewrite sum_list_fmap_with.
  pose proof (sum_over_queries Datatypes.id Datatypes.id (λ _, true) l C)
    as Hq.
  cbn in Hq. apply Hq; [done|done|].
  intros k Hk. split; [|done]. intros _. exists k. split; [by apply Hdom|done].
Qed.

(** ... and the number of positive counts is the number of keys with a
    positive count. *)
Lemma sum_positive_counts C l :
  NoDup l → (∀ k, is_Some (C !! k) → k ∈ l) →
  sum_list_with (λ c, positive (count_of C c)) l
  = count_keys C (λ kv, bool_decide (0 < kv.2)).
Proof.
  intros Hnd Hdom. unfold count_keys. rewrite sum_indicator.
  pose proof (sum_over_queries Datatypes.id positive (λ _, true) l C)
    as Hq.
  cbn in Hq. apply Hq; [done|done|].
  intros k Hk. split; [|done]. intros _. exists k. split; [by apply Hdom|done].
Qed.
End count_identities.

(** The number of distinct continuations seen after [h] (line 150). *)
Lemma sum_positive_continuations (B : gmap bigram nat) (h : symbol)
    (l : list symbol) :
  NoDup l →
  (∀ k n, B !! k = Some n → 0 < n ∧ k.2 ∈ l) →
  sum_list_with (λ c, positive (count_of B (h, c))) l
  = count_keys B (λ kv, bool_decide (kv.1.1 = h)).
Proof.
  intros Hnd HB. unfold count_keys. rewrite sum_indicator.
  rewrite (sum_over_queries (λ c, (h, c)) positive
             (λ k, bool_decide (k.1 = h)) l B); [|done|done|].
  - apply sum_list_with_ext. intros [k n] Hkn. cbn [fst snd].
    destruct (bool_decide (k.1 = h)); [|done].
    apply elem_of_map_to_list in Hkn. destruct (HB k n Hkn) as [Hn _].
    unfold positive. by rewrite bool_decide_eq_true_2.
  - intros [a b] [n Hn]. cbn [fst]. rewrite bool_decide_eq_true. split.
    + intros ->. exists b. split; [|done]. apply (HB _ _ Hn).
    + intros (c & _ & Heq). congruence.
Qed.

(** ** Normalisation of the rows *)

(** Discounting a family of counts removes [d] once per positive count. *)
Lemma Qsum_discount {A : Type} (d : Q) (n : A → nat) (l : list A) :
  (0 <= d)%Q → (d <= 1)%Q →
  (Qsum (λ x, pymax0 (Qnat (n x) - d)) l
   == Qnat (sum_list_with n l)
      - d * Qnat (sum_list_with (λ x, positive (n x)) l))%Q.
Proof.
  intros Hd0 Hd1. induction l as [|x l IH]; simpl.
  - rewrite Qnat_0. lraQ.
  - rewrite IH, !Qnat_plus, (pymax0_discount d (n x) Hd0 Hd1).
    unfold positive. lraQ.
Qed.

Section normalisation.
Variable bs : list bigram.
Variable l : list symbol.
Hypothesis l_nodup : NoDup l.
Hypothesis closed : ∀ b, b ∈ bs → b.1 ∈ l ∧ b.2 ∈ l.

Let U : gmap symbol nat := Counter bs.*1.
Let B : gmap bigram nat := Counter bs.

Lemma row_counts (h : symbol) :
  sum_list_with (λ c, count_of B (h, c)) l = count_of U h.
Proof.
  subst U B. rewrite count_of_Counter.
  rewrite <- (occ_history bs h l l_nodup); [|intros b Hb; by apply closed].
  apply sum_list_with_ext. intros c _. apply count_of_Counter.
Qed.

Lemma history_keys_closed (k : symbol) : is_Some (U !! k) → k ∈ l.
Proof.
  subst U. rewrite Counter_dom. intros Hk.
  apply list_elem_of_fmap in Hk as (b & -> & Hb). by apply closed.
Qed.

Lemma bigram_keys_closed (k : bigram) (n : nat) :
  B !! k = Some n → 0 < n ∧ k.2 ∈ l.
Proof.
  subst B. intros Hk. split; [by eapply Counter_positive|].
  apply closed. apply Counter_dom. eauto.
Qed.

(** Add-one smoothing: each row sums to one. *)
Lemma additive_row_normalised (h : symbol) :
  h ∈ l → (Qsum (additive_formula U B (length l) h) l == 1)%Q.
Proof.
  intros Hh. unfold additive_formula, Qdiv.
  rewrite Qsum_scale_r, Qsum_Qnat, sum_list_with_plus, row_counts.
  replace (sum_list_with (λ _, 1) l) with (length l).
  2:{ clear. induction l as [|x l' IH]; simpl; [done|]. by rewrite <- IH. }
  assert (0 < length l) as HL.
  { destruct l; [by inversion Hh|simpl; lia]. }
  pose proof (Qnat_pos (count_of U h + length l)) as Hpos.
  field. specialize (Hpos ltac:(lia)). lraQ.
Qed.

Section discounting.
Variable d : Q.
Hypothesis d_lower : (0 <= d)%Q.
Hypothesis d_upper : (d <= 1)%Q.
Hypothesis seen : 0 < sum_values U.
Hypothesis l_nonempty : 0 < length l.

(** The discounted unigram distribution sums to one. *)
Lemma unigram_normalised :
  (Qsum (unigram_formula d U (length l)) l == 1)%Q.
Proof.
  unfold unigram_formula, Qdiv.
  rewrite Qsum_plus, Qsum_scale_r, Qsum_const.
  rewrite (Qsum_discount d (λ c, count_of U c) l d_lower d_upper).
  rewrite (sum_counts U l l_nodup history_keys_closed).
  rewrite (sum_positive_counts U l l_nodup history_keys_closed).
  pose proof (Qnat_pos _ seen). pose proof (Qnat_pos _ l_nonempty).
  field. split; lraQ.
Qed.

(** Absolute discounting: each row sums to one. *)
Lemma absdisc_row_normalised (h : symbol) :
  (Qsum (absdisc_formula d U B (length l) h) l == 1)%Q.
Proof.
  unfold absdisc_formula.
  destruct (bool_decide (count_of U h = 0)) eqn:Hz.
  - apply unigram_normalised.
  - apply bool_decide_eq_false in Hz. unfold Qdiv.
    rewrite Qsum_plus, Qsum_scale_r, Qsum_scale_l, unigram_normalised.
    rewrite (Qsum_discount d (λ c, count_of B (h, c)) l d_lower d_upper).
    rewrite row_counts.
    rewrite (sum_positive_continuations B h l l_nodup bigram_keys_closed).
    pose proof (Qnat_pos (count_of U h)) as Hpos.
    field. specialize (Hpos ltac:(lia)). lraQ.
Qed.
End discounting.
End normalisation.

(** ** Construction in closed form *)

Lemma sets_store_after (ℓs : loc) (unk : bool) (σ : store) :
  sets (store_after ℓs unk σ) !!! ℓs = vocabulary unk (sets σ !!! ℓs).
Proof.
  unfold store_after, vocabulary. destruct unk; [|done].
  simpl. by rewrite lookup_total_insert_eq.
Qed.

Lemma lists_store_after (ℓs : loc) (unk : bool) (σ : store) :
  lists (store_after ℓs unk σ) = lists σ.
Proof. by destruct unk. Qed.

Lemma init_fields_total (c : estimator) (ℓc ℓs : loc) (unk : bool)
    (σ : store) :
  init_fields c ℓc ℓs unk σ
  = (Ok (counted c (lists σ !!! ℓc) ℓs), store_after ℓs unk σ).
Proof. unfold init_fields. by rewrite extract_grams_total. Qed.

Lemma base_init_eq (c : estimator) (ℓc ℓs : loc) (unk : bool) (σ : store) :
  base_init c ℓc ℓs unk σ
  = (estimate_probs (counted c (lists σ !!! ℓc) ℓs) (store_after ℓs unk σ),
     store_after ℓs unk σ).
Proof. unfold base_init. by rewrite init_fields_total. Qed.

(** The additive constructor always returns a model. *)
Lemma Phoneme_LM_new_total (ℓc ℓs : loc) (unk : bool) (σ : store) :
  Phoneme_LM_new ℓc ℓs unk σ
  = (Ok (fitted Additive (lists σ !!! ℓc) ℓs
           (vocabulary unk (sets σ !!! ℓs))),
     store_after ℓs unk σ).
Proof.
  unfold Phoneme_LM_new. rewrite base_init_eq. f_equal.
  unfold estimate_probs. cbn [cls counted phoneme_set UCOUNTS BCOUNTS].
  rewrite sets_store_after, additive_probs_total. done.
Qed.

Lemma sum_occ_length `{Countable K} (l l' : list K) :
  NoDup l' → (∀ x, x ∈ l → x ∈ l') →
  sum_list_with (λ c, occ c l) l' = length l.
Proof.
  intros Hnd. induction l as [|x l IH]; intros Hin.
  - apply sum_list_with_zero.
  - rewrite (sum_list_with_ext _
      (λ c, (if decide (x = c) then 1 else 0) + occ c l)).
    2:{ intros c _. by rewrite occ_cons. }
    rewrite sum_list_with_plus, IH, sum_hit_once; [done|done| |].
    + apply Hin. by left.
    + intros y Hy. apply Hin. by right.
Qed.

(** [sum(Counter(l).values())] is the length of [l]. *)
Lemma sum_values_Counter `{Countable K} (l : list K) :
  sum_values (Counter l) = length l.
Proof.
  rewrite <- (sum_counts (Counter l) (remove_dups l)).
  - rewrite <- (sum_occ_length l (remove_dups l)).
    + apply sum_list_with_ext. intros c _. apply count_of_Counter.
    + apply NoDup_remove_dups.
    + intros x. by rewrite elem_of_remove_dups.
  - apply NoDup_remove_dups.
  - intros k. rewrite Counter_dom. by rewrite elem_of_remove_dups.
Qed.

Lemma vocabulary_true_nonempty (V : gset symbol) : vocabulary true V ≠ ∅.
Proof. unfold vocabulary. set_solver. Qed.

Lemma estimate_probs_absdisc (self : Phoneme_LM) (d : Q) (σ : store) :
  cls self = Absdisc d → 0 < sum_values (UCOUNTS self) →
  estimate_probs self σ
  = Ok {| cls := cls self; UCOUNTS := UCOUNTS self; BCOUNTS := BCOUNTS self;
          phoneme_set := phoneme_set self;
          P := fill_table
                 (absdisc_formula d (UCOUNTS self) (BCOUNTS self)
                    (size (sets σ !!! phoneme_set self)))
                 ∅ (elements (sets σ !!! phoneme_set self))
                 (elements (sets σ !!! phoneme_set self)) |}.
Proof.
  intros Hc HN. unfold estimate_probs. rewrite Hc.
  by rewrite absdisc_probs_ok.
Qed.

(** The discounting constructor returns a model exactly when the corpus
    holds a bigram. *)
Lemma Absdisc_Phoneme_LM_new_ok (ℓc ℓs : loc) (unk : bool) (d : Q)
    (σ : store) :
  corpus_bigrams (lists σ !!! ℓc) ≠ [] →
  Absdisc_Phoneme_LM_new ℓc ℓs unk d σ
  = (Ok (fitted (Absdisc d) (lists σ !!! ℓc) ℓs
           (vocabulary true (sets σ !!! ℓs))),
     store_after ℓs true σ).
Proof.
  intros Hne. unfold Absdisc_Phoneme_LM_new. rewrite base_init_eq.
  assert (0 < sum_values (Counter (corpus_bigrams (lists σ !!! ℓc)).*1))
    as HN.
  { rewrite sum_values_Counter, length_fmap.
    destruct (corpus_bigrams (lists σ !!! ℓc)); [done|simpl; lia]. }
  rewrite (estimate_probs_absdisc _ d) by done.
  rewrite (estimate_probs_absdisc _ d) by done.
  cbn [cls counted phoneme_set UCOUNTS BCOUNTS].
  by rewrite sets_store_after.
Qed.

Lemma Absdisc_Phoneme_LM_new_empty (ℓc ℓs : loc) (unk : bool) (d : Q)
    (σ : store) :
  corpus_bigrams (lists σ !!! ℓc) = [] →
  Absdisc_Phoneme_LM_new ℓc ℓs unk d σ
  = (Err ZeroDivisionError, store_after ℓs true σ).
Proof.
  intros He. unfold Absdisc_Phoneme_LM_new. rewrite base_init_eq.
  unfold estimate_probs. cbn [cls counted phoneme_set UCOUNTS BCOUNTS].
  rewrite sets_store_after, absdisc_probs_zero; [done| |].
  - by rewrite He.
  - apply vocabulary_true_nonempty.
Qed.

(** * Main results *)

(** Membership in a set that is known by computation. *)
Ltac compute_elem_of :=
  match goal with
  | |- ?G => apply (bool_decide_unpack G); vm_compute; exact I
  end.

(** ** Additive smoothing *)

Lemma Qnat_div_pos (n m : nat) : 0 < n → 0 < m → (0 < Qnat n / Qnat m)%Q.
Proof.
  intros Hn Hm. apply Qlt_shift_div_l; [by apply Qnat_pos|].
  pose proof (Qnat_pos n Hn). lraQ.
Qed.

(** C3. The additive estimator stores, for every ordered pair [(h, c)] of
    symbols of the vocabulary, the value
    [(count(h,c) + 1) / (count(h) + |vocabulary|)], where a count that is
    absent from its table is 0; the constructor always returns, every such
    pair is defined and its probability is strictly positive.  The vocabulary
    is the phoneme set of the model, that is the caller's set object after
    construction. *)
Theorem additive_smoothing_contract (ℓc ℓs : loc) (unk : bool) (σ : store)
    (h c : symbol) :
  let r := Phoneme_LM_new ℓc ℓs unk σ in
  let V := sets r.2 !!! ℓs in
  h ∈ V → c ∈ V →
  ∃ m, r.1 = Ok m ∧
    let Nb := default 0 (BCOUNTS m !! (h, c)) in
    let Nu := default 0 (UCOUNTS m !! h) in
    getitem2 (P m) h c = Ok (Qnat (Nb + 1) / Qnat (Nu + size V))%Q
    ∧ (0 < Qnat (Nb + 1) / Qnat (Nu + size V))%Q.
Proof.
  intros r V. subst r V. rewrite Phoneme_LM_new_total. cbn [fst snd].
  rewrite sets_store_after. intros Hh Hc. eexists. split; [done|].
  cbv zeta. split.
  - apply getitem2_some. cbn [P fitted].
    rewrite lookup2_fill_table, decide_True; [done|].
    by rewrite !elem_of_elements.
  - apply Qnat_div_pos; [lia|].
    apply elem_of_elements, elements_size_pos in Hh. lia.
Qed.

Lemma additive_smoothing_contract_witness :
  let r := Phoneme_LM_new 1 0 true example_store in
  let V := sets r.2 !!! 0 in
  ∃ m, r.1 = Ok m ∧
    let Nb := default 0 (BCOUNTS m !! ("a", "b")) in
    let Nu := default 0 (UCOUNTS m !! "a") in
    getitem2 (P m) "a" "b" = Ok (Qnat (Nb + 1) / Qnat (Nu + size V))%Q
    ∧ (0 < Qnat (Nb + 1) / Qnat (Nu + size V))%Q.
Proof.
  apply (additive_smoothing_contract 1 0 true example_store "a" "b");
    compute_elem_of.
Defined.

(** C6 as stated fails for the default flag [unk=True]: the unknown symbol
    joins the vocabulary, [L] is 5 and [P(b|a)] is [2/6]. *)
Lemma worked_example_default_flag :
  let r := Phoneme_LM_new 1 0 true example_store in
  ∃ m, r.1 = Ok m
    ∧ size (sets r.2 !!! 0) = 5
    ∧ getitem2 (P m) "a" "b" = Ok (2 # 6)%Q
    ∧ ¬ (2 # 6 == 2 # 5)%Q.
Proof.
  cbv zeta. rewrite Phoneme_LM_new_total. cbn [fst snd].
  eexists. split; [done|]. split; [by vm_compute|]. split; [by vm_compute|].
  intros Heq. vm_compute in Heq. discriminate.
Qed.

(** C6, amended.  With [unk=False], the vocabulary [{a, b, #, @}] and the
    corpus [[["#","a","b","@"]]], the additive model has
    [P(b|a) = (1+1)/(1+4) = 2/5], [P(a|a) = (0+1)/(1+4) = 1/5] and the row of
    [a] sums to 1 over the vocabulary. *)
Theorem worked_example (ℓc ℓs : loc) (σ : store) :
  lists σ !!! ℓc = [["#"; "a"; "b"; "@"]] →
  sets σ !!! ℓs = {[ "a"; "b"; "#"; "@" ]} →
  let r := Phoneme_LM_new ℓc ℓs false σ in
  ∃ m s, r.1 = Ok m
    ∧ sets r.2 !!! ℓs = {[ "a"; "b"; "#"; "@" ]}
    ∧ getitem2 (P m) "a" "b" = Ok (2 # 5)%Q
    ∧ getitem2 (P m) "a" "a" = Ok (1 # 5)%Q
    ∧ row_sum (P m) "a" (elements (sets r.2 !!! ℓs)) = Ok s
    ∧ (s == 1)%Q.
Proof.
  intros Hc HV. cbv zeta. rewrite Phoneme_LM_new_total. cbn [fst snd].
  unfold store_after, vocabulary. rewrite Hc, HV.
  eexists. exists (625 # 625)%Q. split; [done|].
  split; [done|]. split; [by vm_compute|]. split; [by vm_compute|].
  split; [by vm_compute|]. reflexivity.
Qed.

Lemma worked_example_witness :
  let r := Phoneme_LM_new 1 0 false example_store in
  ∃ m s, r.1 = Ok m
    ∧ sets r.2 !!! 0 = {[ "a"; "b"; "#"; "@" ]}
    ∧ getitem2 (P m) "a" "b" = Ok (2 # 5)%Q
    ∧ getitem2 (P m) "a" "a" = Ok (1 # 5)%Q
    ∧ row_sum (P m) "a" (elements (sets r.2 !!! 0)) = Ok s
    ∧ (s == 1)%Q.
Proof.
  apply (worked_example 1 0 example_store); reflexivity.
Defined.

(** ** The caller's objects *)

(** The store after either constructor: the discounting constructor passes
    the literal [True] for [unk]. *)
Lemma new_model_store (c : estimator) (ℓc ℓs : loc) (unk : bool) (σ : store) :
  (new_model c ℓc ℓs unk σ).2
  = store_after ℓs match c with Additive => unk | Absdisc _ => true end σ.
Proof.
  destruct c as [|d]; simpl.
  - by rewrite Phoneme_LM_new_total.
  - destruct (decide (corpus_bigrams (lists σ !!! ℓc) = [])) as [He|Hne].
    + by rewrite Absdisc_Phoneme_LM_new_empty.
    + by rewrite Absdisc_Phoneme_LM_new_ok.
Qed.

(** C5 as stated fails: constructing the additive model with [unk=True] from
    the vocabulary [{a, b, #, @}] leaves the caller's set with five symbols,
    ["$"] among them. *)
Lemma construction_mutates_vocabulary :
  let σ' := (new_model Additive 1 0 true example_store).2 in
  "$" ∈ sets σ' !!! 0
  ∧ ("$" ∉ sets example_store !!! 0)
  ∧ sets σ' !!! 0 ≠ sets example_store !!! 0.
Proof.
  cbv zeta. rewrite new_model_store.
  assert ("$" ∈ sets (store_after 0 true example_store) !!! 0) as Hin
    by compute_elem_of.
  assert ("$" ∉ (sets example_store !!! 0)) as Hnin.
  { intros Hin'. apply (bool_decide_pack _) in Hin'. vm_compute in Hin'.
    exact Hin'. }
  split; [done|]. split; [done|]. intros Heq. apply Hnin. by rewrite <- Heq.
Qed.

(** C5, amended.  Construction never changes the corpus, nor any set object
    other than the one passed as vocabulary.  With [unk=True] (either
    variant) the caller's set afterwards is the set before with ["$"]
    added; the additive variant with [unk=False] leaves the whole store
    unchanged. *)
Theorem construction_frame (c : estimator) (ℓc ℓs : loc) (unk : bool)
    (σ : store) :
  lists (new_model c ℓc ℓs unk σ).2 = lists σ
  ∧ (∀ ℓ, ℓ ≠ ℓs → sets (new_model c ℓc ℓs unk σ).2 !! ℓ = sets σ !! ℓ)
  ∧ sets (new_model c ℓc ℓs true σ).2 !!! ℓs = {["$"]} ∪ (sets σ !!! ℓs)
  ∧ (new_model Additive ℓc ℓs false σ).2 = σ.
Proof.
  rewrite !new_model_store. split; [apply lists_store_after|].
  split; [|split].
  - intros ℓ Hℓ. unfold store_after.
    destruct (match c with Additive => unk | Absdisc _ => true end);
      [|done].
    simpl. by rewrite lookup_insert_ne.
  - assert (match c with Additive => true | Absdisc _ => true end = true)
      as -> by (by destruct c).
    by rewrite sets_store_after.
  - done.
Qed.

(** ** The empty training corpus *)

(** C4 as stated fails: on an empty corpus the statements before estimation
    complete without rejecting anything, and the exception comes out of
    [estimate_probs] itself; it is [ZeroDivisionError], not a validation
    error. *)
Lemma empty_corpus_not_validated :
  let r0 := init_fields (Absdisc (1 # 2)) 1 0 true empty_corpus_store in
  let r := Absdisc_Phoneme_LM_new 1 0 true (1 # 2) empty_corpus_store in
  ∃ self, r0.1 = Ok self
    ∧ estimate_probs self r0.2 = Err ZeroDivisionError
    ∧ r.1 = Err ZeroDivisionError
    ∧ is_validation_error ZeroDivisionError = false.
Proof.
  cbv zeta. rewrite init_fields_total. cbn [fst snd].
  eexists. split; [done|]. split; [by vm_compute|]. split; [|done].
  by rewrite Absdisc_Phoneme_LM_new_empty.
Qed.

(** C4, amended.  Constructing the discounting estimator from an empty
    training corpus, with any vocabulary, raises [ZeroDivisionError].  The
    counts are extracted and the vocabulary is set up first, without any
    check; the exception is raised inside [estimate_probs] by the division
    [d/N], which is the first operation of every probability computation, so
    no probability is computed and no model is returned. *)
Theorem empty_corpus_raises (ℓc ℓs : loc) (unk : bool) (d : Q) (σ : store) :
  lists σ !!! ℓc = [] →
  let r0 := init_fields (Absdisc d) ℓc ℓs true σ in
  Absdisc_Phoneme_LM_new ℓc ℓs unk d σ
  = (Err ZeroDivisionError, store_after ℓs true σ)
  ∧ ∃ self, r0 = (Ok self, store_after ℓs true σ)
      ∧ sum_values (UCOUNTS self) = 0
      ∧ estimate_probs self r0.2 = Err ZeroDivisionError
      ∧ ∀ L c, unigram_prob d (UCOUNTS self) L c = Err ZeroDivisionError.
Proof.
  intros He. cbv zeta. rewrite init_fields_total. cbn [fst snd].
  split.
  - apply Absdisc_Phoneme_LM_new_empty. by rewrite He.
  - eexists. split; [done|]. rewrite He. cbn [counted UCOUNTS].
    split; [done|]. split.
    + unfold estimate_probs. cbn [cls counted phoneme_set UCOUNTS BCOUNTS].
      rewrite sets_store_after, absdisc_probs_zero; [done|done|].
      apply vocabulary_true_nonempty.
    + intros L c. by apply unigram_prob_zero.
Qed.

Lemma empty_corpus_raises_witness :
  let r0 := init_fields (Absdisc (1 # 2)) 1 0 true empty_corpus_store in
  Absdisc_Phoneme_LM_new 1 0 true (1 # 2) empty_corpus_store
  = (Err ZeroDivisionError, store_after 0 true empty_corpus_store)
  ∧ ∃ self, r0 = (Ok self, store_after 0 true empty_corpus_store)
      ∧ sum_values (UCOUNTS self) = 0
      ∧ estimate_probs self r0.2 = Err ZeroDivisionError
      ∧ ∀ L c, unigram_prob (1 # 2) (UCOUNTS self) L c
               = Err ZeroDivisionError.
Proof.
  apply (empty_corpus_raises 1 0 true (1 # 2) empty_corpus_store).
  reflexivity.
Defined.

(** ** Count extraction *)

Lemma length_filter_fmap {A B : Type} (f : A → B) (Q : B → Prop)
    `{!∀ y, Decision (Q y)} (l : list A) :
  length (filter Q (f <$> l)) = length (filter (λ x, Q (f x)) l).
Proof.
  induction l as [|x l IH]; [done|].
  rewrite fmap_cons, !filter_cons.
  destruct (decide (Q (f x))); simpl; by rewrite IH.
Qed.

Lemma length_filter_ext {A : Type} (Q1 Q2 : A → Prop)
    `{!∀ x, Decision (Q1 x)} `{!∀ x, Decision (Q2 x)} (l : list A) :
  (∀ x, x ∈ l → Q1 x ↔ Q2 x) →
  length (filter Q1 l) = length (filter Q2 l).
Proof.
  induction l as [|x l IH]; intros Hiff; [done|].
  rewrite !filter_cons.
  assert (length (filter Q1 l) = length (filter Q2 l)) as Hl.
  { apply IH. intros y Hy. apply Hiff. by right. }
  pose proof (Hiff x ltac:(left)) as Hx.
  destruct (decide (Q1 x)), (decide (Q2 x)); simpl; try tauto; by rewrite Hl.
Qed.

Lemma range_1_cons (n : nat) : range 1 (S (S n)) = 1 :: (S <$> range 1 (S n)).
Proof.
  unfold range. replace (S (S n) - 1) with (S n) by lia.
  replace (S n - 1) with n by lia. simpl. f_equal. by rewrite fmap_S_seq.
Qed.

Lemma elem_of_range_1 (i n : nat) : i ∈ range 1 n → 1 ≤ i.
Proof. unfold range. rewrite elem_of_seq. lia. Qed.

Lemma occ_adjacent_bigram (w : list symbol) (a b : symbol) :
  occ (a, b) (adjacent w) = length (bigram_positions w a b).
Proof.
  unfold bigram_positions.
  induction w as [|x [|y t] IH]; [done|done|].
  change (adjacent (x :: y :: t)) with ((x, y) :: adjacent (y :: t)).
  rewrite occ_cons, IH.
  change (length (x :: y :: t)) with (S (S (length t))).
  change (length (y :: t)) with (S (length t)).
  rewrite range_1_cons, filter_cons.
  assert (length (filter
            (λ i, (x :: y :: t) !! (i - 1) = Some a
                  ∧ (x :: y :: t) !! i = Some b)
            (S <$> range 1 (S (length t))))
          = length (filter
              (λ i, (y :: t) !! (i - 1) = Some a ∧ (y :: t) !! i = Some b)
              (range 1 (S (length t))))) as Htail.
  { rewrite length_filter_fmap. apply length_filter_ext.
    intros i Hi. apply elem_of_range_1 in Hi.
    replace (S i - 1) with (S (i - 1)) by lia. done. }
  destruct (decide ((x, y) = (a, b))) as [Heq|Hne].
  - injection Heq as -> ->. rewrite decide_True by done.
    cbn [length]. by rewrite Htail.
  - rewrite decide_False; [by rewrite Htail|].
    intros [[= ->] [= ->]]. done.
Qed.

Lemma occ_adjacent_history (w : list symbol) (a : symbol) :
  occ a (adjacent w).*1 = length (history_positions w a).
Proof.
  unfold history_positions.
  induction w as [|x [|y t] IH]; [done|done|].
  change (adjacent (x :: y :: t)) with ((x, y) :: adjacent (y :: t)).
  rewrite fmap_cons, occ_cons, IH. cbn [fst].
  change (length (x :: y :: t)) with (S (S (length t))).
  change (length (y :: t)) with (S (length t)).
  rewrite range_1_cons, filter_cons.
  assert (length (filter (λ i, (x :: y :: t) !! (i - 1) = Some a)
                    (S <$> range 1 (S (length t))))
          = length (filter (λ i, (y :: t) !! (i - 1) = Some a)
                      (range 1 (S (length t))))) as Htail.
  { rewrite length_filter_fmap. apply length_filter_ext.
    intros i Hi. apply elem_of_range_1 in Hi.
    replace (S i - 1) with (S (i - 1)) by lia. done. }
  destruct (decide (x = a)) as [->|Hne].
  - rewrite decide_True by done. cbn [length]. by rewrite Htail.
  - rewrite decide_False; [by rewrite Htail|]. intros [= ->]. done.
Qed.

Lemma occ_corpus_bigrams (corpus : list (list symbol)) (a b : symbol) :
  occ (a, b) (corpus_bigrams corpus)
  = sum_list_with (λ w, length (bigram_positions w a b)) corpus.
Proof.
  unfold corpus_bigrams.
  induction corpus as [|w corpus IH]; [done|]. simpl.
  rewrite occ_app, occ_adjacent_bigram. f_equal. exact IH.
Qed.

Lemma occ_corpus_histories (corpus : list (list symbol)) (a : symbol) :
  occ a (corpus_bigrams corpus).*1
  = sum_list_with (λ w, length (history_positions w a)) corpus.
Proof.
  unfold corpus_bigrams.
  induction corpus as [|w corpus IH]; [done|]. simpl.
  rewrite fmap_app, occ_app, occ_adjacent_history. f_equal. exact IH.
Qed.

(** C8. The count extractor never raises.  The bigram table holds, for each
    pair [(a, b)], one count per sequence and per position [i] of
    [range(1, len(seq))] with [(seq[i-1], seq[i]) = (a, b)]; the unigram
    table holds, for each [a], one count per such position with
    [seq[i-1] = a], so the last position of a sequence is never counted; a
    key is present exactly when its count is positive, and the total of each
    table is the number of adjacent pairs.  On an empty corpus both tables
    are empty. *)
Theorem count_extraction (c : estimator) (ℓc ℓs : loc) (unk : bool)
    (σ : store) :
  let corpus := lists σ !!! ℓc in
  ∃ self, (init_fields c ℓc ℓs unk σ).1 = Ok self
    ∧ (∀ a b, count_of (BCOUNTS self) (a, b)
              = sum_list_with (λ w, length (bigram_positions w a b)) corpus)
    ∧ (∀ a, count_of (UCOUNTS self) a
            = sum_list_with (λ w, length (history_positions w a)) corpus)
    ∧ (∀ a b, is_Some (BCOUNTS self !! (a, b))
              ↔ 0 < count_of (BCOUNTS self) (a, b))
    ∧ (∀ a, is_Some (UCOUNTS self !! a) ↔ 0 < count_of (UCOUNTS self) a)
    ∧ sum_values (BCOUNTS self) = sum_list_with (λ w, length w - 1) corpus
    ∧ sum_values (UCOUNTS self) = sum_list_with (λ w, length w - 1) corpus
    ∧ (corpus = [] → UCOUNTS self = ∅ ∧ BCOUNTS self = ∅).
Proof.
  cbv zeta. rewrite init_fields_total. cbn [fst].
  eexists. split; [done|]. cbn [counted UCOUNTS BCOUNTS].
  assert (length (corpus_bigrams (lists σ !!! ℓc))
          = sum_list_with (λ w, length w - 1) (lists σ !!! ℓc)) as Hlen.
  { unfold corpus_bigrams. induction (lists σ !!! ℓc) as [|w ws IH]; [done|].
    simpl. rewrite length_app, length_adjacent. f_equal. exact IH. }
  split_and!.
  - intros a b. by rewrite count_of_Counter, occ_corpus_bigrams.
  - intros a. by rewrite count_of_Counter, occ_corpus_histories.
  - intros a b. rewrite Counter_dom, count_of_Counter. symmetry.
    apply occ_pos.
  - intros a. rewrite Counter_dom, count_of_Counter. symmetry. apply occ_pos.
  - by rewrite sum_values_Counter.
  - by rewrite sum_values_Counter, length_fmap.
  - by intros ->.
Qed.

(** ** Evaluation *)

(** A loop over the items of a comprehension. *)
Lemma foldM_list_comp {S A B : Type} (e : A → result B)
    (k : S → B → result S) (body : S → A → result S)
    (l : list A) (ys : list B) (s : S) :
  list_comp e l = Ok ys →
  (∀ s x, body s x = (y ← e x; k s y)) →
  foldM body s l = foldM k s ys.
Proof.
  intros Hl Hbody. revert ys s Hl.
  induction l as [|x l IH]; intros ys s Hl; simpl in Hl.
  - by injection Hl as <-.
  - simpl. rewrite Hbody. destruct (e x) as [y|err]; [|done]. simpl in *.
    destruct (list_comp e l) as [ys'|err]; [|done]. simpl in Hl.
    injection Hl as <-. simpl. destruct (k s y) as [s'|err]; [|done].
    simpl. by apply IH.
Qed.

Lemma remap_not_elem_of (V : gset symbol) (s : symbol) :
  (if bool_decide (s ∉ V) then "$" else s) = remap V s.
Proof.
  unfold remap. destruct (decide (s ∈ V)) as [Hs|Hs].
  - rewrite bool_decide_eq_false_2 by (intros Hn; by apply Hn).
    by rewrite bool_decide_eq_true_2.
  - rewrite bool_decide_eq_true_2 by done.
    by rewrite bool_decide_eq_false_2.
Qed.

Lemma perplexity_word (self : Phoneme_LM) (V : gset symbol)
    (word : list symbol) (acc : R * nat) :
  foldM (λ acc i,
           ph_h ← getitem word (i - 1);
           ph_i ← getitem word i;
           let ph_h := if bool_decide (ph_h ∉ V) then "$" else ph_h in
           let ph_i := if bool_decide (ph_i ∉ V) then "$" else ph_i in
           lp ← logP self ph_h ph_i;
           Ok ((acc.1 + lp)%R, acc.2 + 1))
        acc (range 1 (length word))
  = foldM (score self V) acc (adjacent word).
Proof.
  apply (foldM_list_comp
    (λ i, a ← getitem word (i - 1); b ← getitem word i; Ok (a, b))).
  - apply Bgrams_adjacent.
  - intros s i. destruct (getitem word (i - 1)) as [a|e]; [|done]. simpl.
    destruct (getitem word i) as [b|e]; [|done]. simpl.
    unfold score. cbn [fst snd]. by rewrite !remap_not_elem_of.
Qed.

(** The evaluation loop visits the adjacent pairs of the corpus in order. *)
Lemma perplexity_loop_bigrams (self : Phoneme_LM) (V : gset symbol)
    (test_corpus : list (list symbol)) :
  perplexity_loop self V test_corpus
  = foldM (score self V) (0%R, 0) (corpus_bigrams test_corpus).
Proof.
  unfold perplexity_loop, corpus_bigrams. generalize (0%R, 0).
  induction test_corpus as [|word ws IH]; intros acc; [done|].
  cbn [foldM fmap list_fmap concat]. rewrite foldM_app, perplexity_word.
  destruct (foldM (score self V) acc (adjacent word)) as [acc'|e]; [|done].
  simpl. apply IH.
Qed.

(** C7. Perplexity scores every adjacent pair [(h, c)] of the held-out
    corpus with the table entry at [(remap h, remap c)]: a symbol of the
    vocabulary is kept, any other symbol becomes ["$"], and the two
    positions are mapped independently of each other. *)
Theorem out_of_vocabulary_mapping (self : Phoneme_LM) (σ : store)
    (test_corpus : list (list symbol)) :
  let V := sets σ !!! phoneme_set self in
  perplexity_loop self V test_corpus
  = foldM (λ acc p,
             lp ← logP self (remap V p.1) (remap V p.2);
             Ok ((acc.1 + lp)%R, acc.2 + 1))
          (0%R, 0) (corpus_bigrams test_corpus)
  ∧ perplexity self σ test_corpus
    = (acc ← foldM (score self V) (0%R, 0) (corpus_bigrams test_corpus);
       if bool_decide (acc.2 = 0) then Err ZeroDivisionError
       else Ok (pypow2 ((-1 / INR acc.2) * acc.1)%R))
  ∧ (∀ s, s ∈ V → remap V s = s)
  ∧ (∀ s, s ∉ V → remap V s = "$")
  ∧ (∀ h c, (remap V h, remap V c)
            = (if bool_decide (h ∈ V) then h else "$",
               if bool_decide (c ∈ V) then c else "$")).
Proof.
  cbv zeta. split_and!.
  - apply perplexity_loop_bigrams.
  - unfold perplexity. by rewrite perplexity_loop_bigrams.
  - intros s Hs. unfold remap. by rewrite bool_decide_eq_true_2.
  - intros s Hs. unfold remap. by rewrite bool_decide_eq_false_2.
  - done.
Qed.

Lemma example_model_fitted :
  Phoneme_LM_new 1 0 false example_store = (Ok example_model, example_store).
Proof. by rewrite Phoneme_LM_new_total. Qed.

Lemma pypow2_pos (y : R) : (0 < pypow2 y)%R.
Proof. unfold pypow2, Rpower. apply exp_pos. Qed.

Lemma ln_2_pos : (0 < ln 2)%R.
Proof. pose proof ln_lt_2. lraR. Qed.

Lemma pylog2_pos (x : R) : (0 < x)%R → pylog2 x = Ok (ln x / ln 2)%R.
Proof. intros Hx. unfold pylog2. destruct (Rle_dec x 0); [lraR|done]. Qed.

(** [log2(2^y) = y] *)
Lemma log2_pypow2 (y : R) : (ln (pypow2 y) / ln 2 = y)%R.
Proof.
  unfold pypow2, Rpower. rewrite ln_exp. pose proof ln_2_pos. by field; lraR.
Qed.






(** ** Corpora without bigrams *)

Lemma adjacent_short (w : list symbol) : length w < 2 → adjacent w = [].
Proof. destruct w as [|a [|b t]]; simpl; [done|done|lia]. Qed.

Lemma corpus_bigrams_short (corpus : list (list symbol)) :
  Forall (λ w, length w < 2) corpus → corpus_bigrams corpus = [].
Proof.
  unfold corpus_bigrams. induction 1 as [|w ws Hw _ IH]; [done|].
  simpl. rewrite adjacent_short by done. exact IH.
Qed.

(** C10. On a held-out corpus without bigrams (empty, or every sequence
    shorter than 2) the loop of perplexity leaves [logProbs] and [M] at 0,
    the division [-1/M] raises [ZeroDivisionError], and so do perplexity and
    surprisal, whatever the model. *)
Theorem perplexity_without_bigrams (self : Phoneme_LM) (σ : store)
    (test_corpus : list (list symbol)) :
  Forall (λ w, length w < 2) test_corpus →
  perplexity_loop self (sets σ !!! phoneme_set self) test_corpus
  = Ok (0%R, 0)
  ∧ perplexity self σ test_corpus = Err ZeroDivisionError
  ∧ surprisal self σ test_corpus = Err ZeroDivisionError.
Proof.
  intros Hshort.
  assert (perplexity_loop self (sets σ !!! phoneme_set self) test_corpus
          = Ok (0%R, 0)) as Hloop.
  { by rewrite perplexity_loop_bigrams, corpus_bigrams_short. }
  assert (perplexity self σ test_corpus = Err ZeroDivisionError) as Hpp.
  { unfold perplexity. by rewrite Hloop. }
  split; [done|]. split; [done|]. unfold surprisal. by rewrite Hpp.
Qed.

Lemma perplexity_without_bigrams_witness :
  perplexity_loop example_model
    (sets example_store !!! phoneme_set example_model) [["a"]; []]
  = Ok (0%R, 0)
  ∧ perplexity example_model example_store [["a"]; []]
    = Err ZeroDivisionError
  ∧ surprisal example_model example_store [["a"]; []]
    = Err ZeroDivisionError.
Proof.
  apply (perplexity_without_bigrams example_model example_store [["a"]; []]).
  repeat constructor.
Defined.

(** ** Normalisation of fitted models *)

Lemma adjacent_elem_of (w : list symbol) (a b : symbol) :
  (a, b) ∈ adjacent w → a ∈ w ∧ b ∈ w.
Proof.
  intros Hab. apply list_elem_of_lookup in Hab as [j Hj].
  apply adjacent_lookup in Hj as [Ha Hb].
  split; apply list_elem_of_lookup; eauto.
Qed.

Lemma corpus_bigrams_closed (corpus : list (list symbol)) (V : gset symbol)
    (p : bigram) :
  corpus_closed corpus V → p ∈ corpus_bigrams corpus → p.1 ∈ V ∧ p.2 ∈ V.
Proof.
  unfold corpus_closed, corpus_bigrams.
  induction 1 as [|w ws Hw _ IH]; simpl; [by inversion 1|].
  rewrite elem_of_app. intros [Hp|Hp]; [|by apply IH].
  destruct p as [a b]. apply adjacent_elem_of in Hp as [Ha Hb].
  rewrite Forall_forall in Hw. split; by apply Hw.
Qed.

Lemma size_elements (V : gset symbol) : size V = length (elements V).
Proof. done. Qed.

(** The rows of a fitted table sum to one. *)
Lemma fitted_normalised (c : estimator) (corpus : list (list symbol))
    (ℓs : loc) (V : gset symbol) (h : symbol) :
  discount_in_range c →
  corpus_closed corpus V →
  match c with Additive => True | Absdisc _ => corpus_bigrams corpus ≠ [] end →
  h ∈ V →
  ∃ s, row_sum (P (fitted c corpus ℓs V)) h (elements V) = Ok s
       ∧ (s == 1)%Q.
Proof.
  intros Hd Hcl Hne Hh.
  assert (∀ b, b ∈ corpus_bigrams corpus
               → b.1 ∈ elements V ∧ b.2 ∈ elements V) as Hcl'.
  { intros b Hb. rewrite !elem_of_elements.
    by apply (corpus_bigrams_closed corpus). }
  pose proof (NoDup_elements V) as Hnd.
  apply elem_of_elements in Hh.
  destruct c as [|d]; cbn [P fitted].
  - destruct (row_sum_exact
      (fill_table
         (additive_formula (Counter (corpus_bigrams corpus).*1)
            (Counter (corpus_bigrams corpus)) (size V))
         ∅ (elements V) (elements V))
      (additive_formula (Counter (corpus_bigrams corpus).*1)
         (Counter (corpus_bigrams corpus)) (size V) h)
      h (elements V)) as (s & Hs & Heq).
    { intros c Hc. by rewrite lookup2_fill_table, decide_True. }
    exists s. split; [done|]. rewrite Heq, size_elements.
    by apply additive_row_normalised.
  - destruct Hd as [Hd0 Hd1].
    destruct (row_sum_exact
      (fill_table
         (absdisc_formula d (Counter (corpus_bigrams corpus).*1)
            (Counter (corpus_bigrams corpus)) (size V))
         ∅ (elements V) (elements V))
      (absdisc_formula d (Counter (corpus_bigrams corpus).*1)
         (Counter (corpus_bigrams corpus)) (size V) h)
      h (elements V)) as (s & Hs & Heq).
    { intros c Hc. by rewrite lookup2_fill_table, decide_True. }
    exists s. split; [done|]. rewrite Heq, size_elements.
    apply absdisc_row_normalised; try done.
    + rewrite sum_values_Counter, length_fmap.
      destruct (corpus_bigrams corpus); [done|simpl; lia].
    + destruct (elements V); [by inversion Hh|simpl; lia].
Qed.

(** The validator passes on a table whose rows sum to one. *)
Lemma test_passes (self : Phoneme_LM) (σ : store) :
  (∀ h, h ∈ sets σ !!! phoneme_set self →
        ∃ s, row_sum (P self) h (elements (sets σ !!! phoneme_set self))
             = Ok s ∧ (s == 1)%Q) →
  test self σ = Ok tt.
Proof.
  intros Hrows. unfold test. cbv zeta.
  rewrite (foldM_pure _ (λ _ _, tt)).
  - by destruct (foldl _ _ _).
  - intros [] h Hh. apply elem_of_elements in Hh.
    destruct (Hrows h Hh) as (s & -> & Hs). cbn [mbind result_bind].
    destruct (Qlt_le_dec (Qabs (1 - s)) precision) as [|Hle]; [done|].
    rewrite Hs in Hle. vm_compute in Hle. by destruct Hle.
Qed.

(** C1 as stated fails: the discounting constructor accepts any discount,
    and outside the range from 0 to 1 the rows no longer sum to one.  With
    [d = 2], on the example corpus, whose symbols all lie in the caller's
    vocabulary, the constructor returns a model; [max(count - d, 0)] is 0
    for every count, the row of the history [a] sums to 4, and the
    validator raises [AssertionError]. *)
Lemma discount_out_of_range :
  corpus_closed (lists example_store !!! 1) (sets example_store !!! 0)
  ∧ ∃ m σ',
      Absdisc_Phoneme_LM_new 1 0 true (2 # 1) example_store = (Ok m, σ')
      ∧ "a" ∈ sets σ' !!! 0
      ∧ (∃ s, row_sum (P m) "a" (elements (sets σ' !!! 0)) = Ok s
              ∧ (s == 4)%Q ∧ ¬ (Qabs (1 - s) < precision)%Q)
      ∧ test m σ' = Err AssertionError.
Proof.
  split; [apply (bool_decide_unpack _); vm_compute; exact I|].
  rewrite Absdisc_Phoneme_LM_new_ok by (vm_compute; discriminate).
  eexists _, _. split; [done|]. split; [compute_elem_of|].
  split; [|by vm_compute].
  eexists. split; [by vm_compute|]. split; [by vm_compute|].
  by vm_compute.
Qed.

(** C1, amended.  For a model fitted by either estimator, the discounting
    one with a discount between 0 and 1, from a corpus whose symbols all lie
    in the caller's vocabulary: for every history of the model's vocabulary
    the probabilities sum to exactly 1 (in exact arithmetic), which is
    within [1e-10] of 1, and the validator passes. *)
Theorem probability_mass_normalised (c : estimator) (ℓc ℓs : loc)
    (unk : bool) (σ σ' : store) (m : Phoneme_LM) :
  discount_in_range c →
  corpus_closed (lists σ !!! ℓc) (sets σ !!! ℓs) →
  new_model c ℓc ℓs unk σ = (Ok m, σ') →
  test m σ' = Ok tt
  ∧ ∀ h, h ∈ sets σ' !!! ℓs →
      ∃ s, row_sum (P m) h (elements (sets σ' !!! ℓs)) = Ok s
           ∧ (s == 1)%Q
           ∧ (Qabs (1 - s) < precision)%Q.
Proof.
  intros Hd Hcl Hnew.
  assert (∃ u, σ' = store_after ℓs u σ
               ∧ m = fitted c (lists σ !!! ℓc) ℓs (vocabulary u (sets σ !!! ℓs))
               ∧ match c with
                 | Additive => True
                 | Absdisc _ => corpus_bigrams (lists σ !!! ℓc) ≠ []
                 end) as (u & -> & -> & Hne).
  { destruct c as [|d]; simpl in Hnew.
    - rewrite Phoneme_LM_new_total in Hnew. injection Hnew as <- <-.
      by exists unk.
    - destruct (decide (corpus_bigrams (lists σ !!! ℓc) = [])) as [He|Hne].
      + by rewrite Absdisc_Phoneme_LM_new_empty in Hnew.
      + rewrite Absdisc_Phoneme_LM_new_ok in Hnew by done.
        injection Hnew as <- <-. by exists true. }
  assert (corpus_closed (lists σ !!! ℓc) (vocabulary u (sets σ !!! ℓs)))
    as Hcl'.
  { unfold corpus_closed in *. eapply Forall_impl; [exact Hcl|].
    intros w Hw. eapply Forall_impl; [exact Hw|].
    intros x Hx. unfold vocabulary. destruct u; set_solver. }
  rewrite sets_store_after.
  assert (∀ h, h ∈ vocabulary u (sets σ !!! ℓs) →
            ∃ s, row_sum
                   (P (fitted c (lists σ !!! ℓc) ℓs
                         (vocabulary u (sets σ !!! ℓs))))
                   h (elements (vocabulary u (sets σ !!! ℓs))) = Ok s
                 ∧ (s == 1)%Q) as Hrows.
  { intros h Hh. by apply fitted_normalised. }
  split.
  - apply test_passes. cbn [phoneme_set fitted].
    by rewrite sets_store_after.
  - intros h Hh. destruct (Hrows h Hh) as (s & Hs & Heq).
    exists s. split; [done|]. split; [done|]. by rewrite Heq.
Qed.

Lemma probability_mass_normalised_witness :
  let σ' := store_after 0 true example_store in
  let m := fitted (Absdisc (1 # 2)) (lists example_store !!! 1) 0
             (vocabulary true (sets example_store !!! 0)) in
  test m σ' = Ok tt
  ∧ ∀ h, h ∈ sets σ' !!! 0 →
      ∃ s, row_sum (P m) h (elements (sets σ' !!! 0)) = Ok s
           ∧ (s == 1)%Q
           ∧ (Qabs (1 - s) < precision)%Q.
Proof.
  apply (probability_mass_normalised (Absdisc (1 # 2)) 1 0 true
           example_store).
  - split; lraQ.
  - apply (bool_decide_unpack _). vm_compute. exact I.
  - apply Absdisc_Phoneme_LM_new_ok. vm_compute. discriminate.
Defined.

(** ** The two regimes of absolute discounting *)

(** Summing the indicator of a positive value over a set counts the
    elements it selects. *)
Lemma sum_positive_size (n : symbol → nat) (S : gset symbol) :
  sum_list_with (λ c, positive (n c)) (elements S)
  = size (filter (λ c, 0 < n c) S).
Proof.
  induction S as [|x X Hx IH] using set_ind_L.
  - rewrite elements_empty, filter_empty_L, size_empty; [done|apply _].
  - rewrite elements_union_singleton by done. cbn [sum_list_with].
    rewrite IH, filter_union_L, size_union; [|clear IH|apply _].
    2:{ intros y Hy1 Hy2. apply elem_of_filter in Hy1 as [_ Hy1].
        apply elem_of_filter in Hy2 as [_ Hy2]. set_solver. }
    f_equal. unfold positive. destruct (decide (0 < n x)) as [Hn|Hn].
    + rewrite bool_decide_eq_true_2 by done.
      rewrite filter_singleton_True_L; [|apply _|done].
      by rewrite size_singleton.
    + rewrite bool_decide_eq_false_2 by done.
      rewrite filter_singleton_False_L; [|apply _|done].
      by rewrite size_empty.
Qed.

Lemma count_keys_distinct_histories (U : gmap symbol nat) :
  count_keys U (λ kv, bool_decide (0 < kv.2)) = distinct_histories U.
Proof.
  unfold distinct_histories.
  rewrite <- (sum_positive_counts U (elements (dom U))).
  - apply sum_positive_size.
  - apply NoDup_elements.
  - intros k Hk. by apply elem_of_elements, elem_of_dom.
Qed.

Lemma count_keys_distinct_continuations (B : gmap bigram nat) (h : symbol) :
  (∀ k n, B !! k = Some n → 0 < n) →
  count_keys B (λ kv, bool_decide (kv.1.1 = h)) = distinct_continuations B h.
Proof.
  intros Hpos. unfold distinct_continuations.
  rewrite <- (sum_positive_continuations B h
                (elements (set_map snd (dom B) : gset symbol))).
  - apply (sum_positive_size (λ c, count_of B (h, c))).
  - apply NoDup_elements.
  - intros k n Hk. split; [by eapply Hpos|].
    apply elem_of_elements, elem_of_map. exists k. split; [done|].
    apply elem_of_dom. eauto.
Qed.

(** C2. In a model fitted by the discounting estimator, with [N] the total
    unigram count, [L] the size of the vocabulary and absent counts read as
    0: [uniP(c)] is [max(count(c) - d, 0)/N + Z_uni * (1/L)] with
    [Z_uni = (d/N) * (number of distinct symbols with a positive unigram
    count)]; a history [h] with count 0 has [P(c|h) = uniP(c)]; a history
    with count [N_h > 0] has [P(c|h) = max(count(h,c) - d, 0)/N_h
    + Z_h * uniP(c)] with [Z_h = (d/N_h) * (number of distinct [c'] with
    [count(h,c') > 0])]; and two histories with count 0 have the same row. *)
Theorem absolute_discounting_contract (ℓc ℓs : loc) (unk : bool) (d : Q)
    (σ σ' : store) (m : Phoneme_LM) :
  Absdisc_Phoneme_LM_new ℓc ℓs unk d σ = (Ok m, σ') →
  let V : gset symbol := sets σ' !!! ℓs in
  let L := size V in
  let U := UCOUNTS m in
  let B := BCOUNTS m in
  let N := sum_values U in
  let uniP c :=
    (pymax0 (Qnat (count_of U c) - d) / Qnat N
     + d / Qnat N * Qnat (distinct_histories U) * (1 / Qnat L))%Q in
  (∀ h c, h ∈ V → c ∈ V → count_of U h = 0 →
     getitem2 (P m) h c = Ok (uniP c))
  ∧ (∀ h c, h ∈ V → c ∈ V → 0 < count_of U h →
       getitem2 (P m) h c
       = Ok (pymax0 (Qnat (count_of B (h, c)) - d)
             / Qnat (count_of U h)
             + d / Qnat (count_of U h)
               * Qnat (distinct_continuations B h) * uniP c)%Q)
  ∧ (∀ h1 h2, h1 ∈ V → h2 ∈ V →
       count_of U h1 = 0 → count_of U h2 = 0 →
       is_Some (P m !! h1) ∧ P m !! h1 = P m !! h2).
Proof.
  intros Hnew.
  destruct (decide (corpus_bigrams (lists σ !!! ℓc) = [])) as [He|Hne].
  { by rewrite Absdisc_Phoneme_LM_new_empty in Hnew. }
  rewrite Absdisc_Phoneme_LM_new_ok in Hnew by done.
  assert (σ' = store_after ℓs true σ) as -> by congruence.
  assert (m = fitted (Absdisc d) (lists σ !!! ℓc) ℓs
                (vocabulary true (sets σ !!! ℓs))) as -> by congruence.
  clear Hnew. cbv zeta. rewrite sets_store_after.
  cbn [UCOUNTS BCOUNTS P fitted].
  set (V := vocabulary true (sets σ !!! ℓs)).
  set (bs := corpus_bigrams (lists σ !!! ℓc)).
  rewrite <- count_keys_distinct_histories.
  assert (∀ h c, h ∈ V → c ∈ V →
            lookup2 (fill_table
                       (absdisc_formula d (Counter bs.*1) (Counter bs)
                          (size V)) ∅ (elements V) (elements V)) h c
            = Some (absdisc_formula d (Counter bs.*1) (Counter bs)
                      (size V) h c)) as Hlook.
  { intros h c Hh Hc. rewrite lookup2_fill_table, decide_True; [done|].
    by rewrite !elem_of_elements. }
  split_and!.
  - intros h c Hh Hc Hz. apply getitem2_some. rewrite Hlook by done.
    unfold absdisc_formula. rewrite bool_decide_eq_true_2 by exact Hz. done.
  - intros h c Hh Hc Hpos. apply getitem2_some. rewrite Hlook by done.
    unfold absdisc_formula.
    rewrite bool_decide_eq_false_2 by lia.
    rewrite <- count_keys_distinct_continuations; [done|].
    intros k n Hk. by eapply Counter_positive.
  - intros h1 h2 Hh1 Hh2 Hz1 Hz2.
    set (T := fill_table _ _ _ _) in *.
    assert (∀ c, lookup2 T h1 c = lookup2 T h2 c) as Hrows.
    { intros c. unfold T. rewrite !lookup2_fill_table.
      destruct (decide (c ∈ elements V)) as [Hc|Hc].
      - rewrite !decide_True by (by rewrite elem_of_elements).
        unfold absdisc_formula.
        rewrite !bool_decide_eq_true_2; [done|exact Hz2|exact Hz1].
      - rewrite !decide_False; [done|by intros [_ ?]|by intros [_ ?]]. }
    pose proof (Hlook h1 h1 Hh1 Hh1) as H1.
    pose proof (Hlook h2 h2 Hh2 Hh2) as H2.
    fold T in H1, H2. unfold lookup2 in H1, H2, Hrows.
    destruct (T !! h1) as [r1|]; [|done].
    destruct (T !! h2) as [r2|]; [|done].
    split; [by eexists|]. f_equal. apply map_eq. intros c. apply Hrows.
Qed.

Lemma absolute_discounting_contract_witness :
  let σ' := store_after 0 true example_store in
  let m := fitted (Absdisc (1 # 2)) (lists example_store !!! 1) 0
             (vocabulary true (sets example_store !!! 0)) in
  let d := (1 # 2)%Q in
  let V : gset symbol := sets σ' !!! 0 in
  let L := size V in
  let U := UCOUNTS m in
  let B := BCOUNTS m in
  let N := sum_values U in
  let uniP c :=
    (pymax0 (Qnat (count_of U c) - d) / Qnat N
     + d / Qnat N * Qnat (distinct_histories U) * (1 / Qnat L))%Q in
  (∀ h c, h ∈ V → c ∈ V → count_of U h = 0 →
     getitem2 (P m) h c = Ok (uniP c))
  ∧ (∀ h c, h ∈ V → c ∈ V → 0 < count_of U h →
       getitem2 (P m) h c
       = Ok (pymax0 (Qnat (count_of B (h, c)) - d)
             / Qnat (count_of U h)
             + d / Qnat (count_of U h)
               * Qnat (distinct_continuations B h) * uniP c)%Q)
  ∧ (∀ h1 h2, h1 ∈ V → h2 ∈ V →
       count_of U h1 = 0 → count_of U h2 = 0 →
       is_Some (P m !! h1) ∧ P m !! h1 = P m !! h2).
Proof.
  apply (absolute_discounting_contract 1 0 true (1 # 2) example_store).
  apply Absdisc_Phoneme_LM_new_ok. vm_compute. discriminate.
Defined.

(** * Further properties of the models *)

(** ** Counts *)

Lemma occ_bigram_le_history (bs : list bigram) (h c : symbol) :
  occ (h, c) bs ≤ occ h bs.*1.
Proof.
  induction bs as [|[a b] bs IH]; [done|].
  rewrite fmap_cons, !occ_cons. cbn [fst].
  destruct (decide ((a, b) = (h, c))) as [[= -> ->]|Hne].
  - rewrite decide_True by done. lia.
  - destruct (decide (a = h)); lia.
Qed.

(** X1. The tables of a model are consistent: a bigram count never exceeds
    the history count of its first symbol, every symbol with a positive
    history count starts some counted bigram, and over any vocabulary that
    holds the corpus the bigram counts of a history add up to its history
    count. *)
Theorem history_count_is_row_total (c : estimator) (ℓc ℓs : loc) (unk : bool)
    (σ : store) (V : gset symbol) :
  corpus_closed (lists σ !!! ℓc) V →
  ∃ self, (init_fields c ℓc ℓs unk σ).1 = Ok self
    ∧ (∀ h x, count_of (BCOUNTS self) (h, x) ≤ count_of (UCOUNTS self) h)
    ∧ (∀ h, 0 < count_of (UCOUNTS self) h →
            ∃ x, 0 < count_of (BCOUNTS self) (h, x))
    ∧ (∀ h, sum_list_with (λ x, count_of (BCOUNTS self) (h, x)) (elements V)
            = count_of (UCOUNTS self) h).
Proof.
  intros Hcl. rewrite init_fields_total. cbn [fst].
  eexists. split; [done|]. cbn [counted UCOUNTS BCOUNTS]. split_and!.
  - intros h x. rewrite !count_of_Counter. apply occ_bigram_le_history.
  - intros h. rewrite count_of_Counter, occ_pos. intros Hh.
    apply list_elem_of_fmap in Hh as ([a b] & -> & Hab).
    exists b. by rewrite count_of_Counter, occ_pos.
  - intros h. apply row_counts; [apply NoDup_elements|].
    intros b Hb. rewrite !elem_of_elements.
    by apply (corpus_bigrams_closed (lists σ !!! ℓc)).
Qed.

Lemma history_count_is_row_total_witness :
  ∃ self, (init_fields Additive 1 0 true example_store).1 = Ok self
    ∧ (∀ h x, count_of (BCOUNTS self) (h, x) ≤ count_of (UCOUNTS self) h)
    ∧ (∀ h, 0 < count_of (UCOUNTS self) h →
            ∃ x, 0 < count_of (BCOUNTS self) (h, x))
    ∧ (∀ h, sum_list_with (λ x, count_of (BCOUNTS self) (h, x))
              (elements ({[ "a"; "b"; "#"; "@" ]} : gset symbol))
            = count_of (UCOUNTS self) h).
Proof.
  apply (history_count_is_row_total Additive 1 0 true example_store).
  apply (bool_decide_unpack _). vm_compute. exact I.
Defined.

(** ** Bounds on the additive estimator *)

(** X2. Every entry of the additive table is a probability: it is strictly
    positive and at most 1, whatever the corpus (closed in the vocabulary or
    not). *)
Theorem additive_entry_bounded (ℓc ℓs : loc) (unk : bool) (σ : store)
    (h c : symbol) :
  let r := Phoneme_LM_new ℓc ℓs unk σ in
  let V := sets r.2 !!! ℓs in
  h ∈ V → c ∈ V →
  ∃ m p, r.1 = Ok m ∧ getitem2 (P m) h c = Ok p ∧ (0 < p)%Q ∧ (p <= 1)%Q.
Proof.
  intros r V. subst r V. rewrite Phoneme_LM_new_total. cbn [fst snd].
  rewrite sets_store_after. intros Hh Hc.
  eexists. eexists. split; [done|]. split.
  { apply getitem2_some. cbn [P fitted].
    rewrite lookup2_fill_table, decide_True; [done|].
    by rewrite !elem_of_elements. }
  apply elem_of_elements, elements_size_pos in Hh.
  unfold additive_formula. rewrite !count_of_Counter.
  pose proof (occ_bigram_le_history (corpus_bigrams (lists σ !!! ℓc)) h c)
    as Hle.
  set (V := vocabulary unk (sets σ !!! ℓs)) in *.
  set (nb := occ (h, c) _) in *. set (nu := occ h _) in *.
  split; [apply Qnat_div_pos; lia|].
  apply Qle_shift_div_r; [apply Qnat_pos; lia|].
  rewrite Qmult_1_l. unfold Qnat. rewrite <- Zle_Qle. lia.
Qed.

Lemma additive_entry_bounded_witness :
  let r := Phoneme_LM_new 1 0 true example_store in
  ∃ m p, r.1 = Ok m ∧ getitem2 (P m) "$" "a" = Ok p
         ∧ (0 < p)%Q ∧ (p <= 1)%Q.
Proof.
  apply (additive_entry_bounded 1 0 true example_store "$" "a");
    compute_elem_of.
Defined.

(** A bigram of the corpus sits at two adjacent positions of a sequence. *)
Lemma corpus_bigrams_position (corpus : list (list symbol)) (a b : symbol) :
  (a, b) ∈ corpus_bigrams corpus →
  ∃ w i, w ∈ corpus ∧ w !! i = Some a ∧ w !! S i = Some b.
Proof.
  unfold corpus_bigrams. induction corpus as [|w ws IH]; [by inversion 1|].
  simpl. rewrite elem_of_app. intros [Hab|Hab].
  - apply list_elem_of_lookup in Hab as [j Hj].
    apply adjacent_lookup in Hj as [Ha Hb].
    exists w, j. split; [by left|done].
  - destruct (IH Hab) as (w' & i & Hw' & Hi). exists w', i.
    split; [by right|done].
Qed.

(** X3. In the additive model a symbol of the vocabulary that never occurs
    as a history (the unknown symbol ["$"] of a corpus without it, the end
    marker) conditions the uniform distribution: every entry of its row is
    [1 / |vocabulary|]. *)
Theorem additive_unseen_history_uniform (ℓc ℓs : loc) (unk : bool)
    (σ : store) (h c : symbol) :
  let r := Phoneme_LM_new ℓc ℓs unk σ in
  let V := sets r.2 !!! ℓs in
  h ∈ V → c ∈ V →
  (∀ w i, w ∈ lists σ !!! ℓc → w !! i = Some h → S i = length w) →
  ∃ m, r.1 = Ok m ∧ getitem2 (P m) h c = Ok (1 / Qnat (size V))%Q.
Proof.
  intros r V. subst r V. rewrite Phoneme_LM_new_total. cbn [fst snd].
  rewrite sets_store_after. intros Hh Hc Hlast.
  eexists. split; [done|]. apply getitem2_some. cbn [P fitted].
  rewrite lookup2_fill_table, decide_True by (by rewrite !elem_of_elements).
  unfold additive_formula. rewrite !count_of_Counter.
  assert (occ h (corpus_bigrams (lists σ !!! ℓc)).*1 = 0) as Hu.
  { destruct (decide (occ h (corpus_bigrams (lists σ !!! ℓc)).*1 = 0))
      as [|Hne]; [done|].
    assert (h ∈ (corpus_bigrams (lists σ !!! ℓc)).*1) as Hin
      by (apply occ_pos; lia).
    apply list_elem_of_fmap in Hin as ([a b] & -> & Hab).
    apply corpus_bigrams_position in Hab as (w & i & Hw & Ha & Hb).
    pose proof (Hlast w i Hw Ha) as Hlen.
    apply lookup_lt_Some in Hb. lia. }
  pose proof (occ_bigram_le_history (corpus_bigrams (lists σ !!! ℓc)) h c)
    as Hle.
  rewrite Hu in *.
  assert (occ (h, c) (corpus_bigrams (lists σ !!! ℓc)) = 0) as -> by lia.
  done.
Qed.

Lemma additive_unseen_history_uniform_witness :
  let r := Phoneme_LM_new 1 0 true example_store in
  let V := sets r.2 !!! 0 in
  ∃ m, r.1 = Ok m ∧ getitem2 (P m) "@" "a" = Ok (1 / Qnat (size V))%Q.
Proof.
  apply (additive_unseen_history_uniform 1 0 true example_store "@" "a");
    [compute_elem_of|compute_elem_of|].
  intros w i Hw Hi.
  assert (w = ["#"; "a"; "b"; "@"]) as ->.
  { vm_compute in Hw. by apply list_elem_of_singleton in Hw. }
  destruct i as [|[|[|[|i]]]]; simpl in Hi; try discriminate; done.
Defined.

(** ** Positivity of the discounting estimator *)

Lemma pymax0_nonneg (a : Q) : (0 <= pymax0 a)%Q.
Proof. unfold pymax0. destruct (Qlt_le_dec a 0); lraQ. Qed.

Lemma sum_list_with_positive {A : Type} (f : A → nat) (l : list A) :
  0 < sum_list_with f l → 0 < sum_list_with (λ x, positive (f x)) l.
Proof.
  induction l as [|x l IH]; simpl; [lia|]. intros Hpos.
  unfold positive at 1. destruct (decide (0 < f x)) as [Hx|Hx].
  - rewrite bool_decide_eq_true_2 by done. lia.
  - rewrite bool_decide_eq_false_2 by done. apply IH. lia.
Qed.

(** A counter with a positive total has a key with a positive count. *)
Lemma count_keys_pos `{Countable K} (C : gmap K nat) :
  0 < sum_values C → 0 < count_keys C (λ kv, bool_decide (0 < kv.2)).
Proof.
  unfold sum_values, count_keys. rewrite sum_list_fmap_with, sum_indicator.
  apply sum_list_with_positive.
Qed.

(** A seen history has at least one continuation among the bigram keys. *)
Lemma count_continuations_pos (bs : list bigram) (h : symbol) :
  0 < count_of (Counter bs.*1) h →
  0 < count_keys (Counter bs) (λ kv, bool_decide (kv.1.1 = h)).
Proof.
  rewrite count_of_Counter, occ_pos. intros Hh.
  apply list_elem_of_fmap in Hh as ([a b] & -> & Hab). cbn [fst].
  assert (is_Some (Counter bs !! (a, b))) as [n Hn] by by apply Counter_dom.
  apply elem_of_map_to_list in Hn.
  unfold count_keys. rewrite sum_indicator.
  pose proof (sum_list_with_in _
    (λ kv : bigram * nat, if bool_decide (kv.1.1 = a) then 1 else 0) _ Hn)
    as Hle.
  cbn [fst] in Hle. rewrite bool_decide_eq_true_2 in Hle by done. lia.
Qed.

Lemma unigram_formula_pos (d : Q) (U : gmap symbol nat) (L : nat)
    (c : symbol) :
  (0 < d)%Q → 0 < sum_values U → 0 < L → (0 < unigram_formula d U L c)%Q.
Proof.
  intros Hd HN HL. unfold unigram_formula.
  pose proof (pymax0_nonneg (Qnat (count_of U c) - d)) as Hm.
  pose proof (Qnat_pos _ HN) as HNq. pose proof (Qnat_pos _ HL) as HLq.
  pose proof (Qnat_pos _ (count_keys_pos U HN)) as HPq.
  assert (0 <= pymax0 (Qnat (count_of U c) - d) / Qnat (sum_values U))%Q.
  { apply Qle_shift_div_l; [done|]. lraQ. }
  assert (0 < d / Qnat (sum_values U)
              * Qnat (count_keys U (λ kv, bool_decide (0 < kv.2)%nat))
              * (1 / Qnat L))%Q.
  { repeat apply Qmult_lt_0_compat; try done;
      by apply Qinv_lt_0_compat. }
  lraQ.
Qed.

Lemma absdisc_formula_pos (d : Q) (bs : list bigram) (L : nat)
    (h c : symbol) :
  (0 < d)%Q → bs ≠ [] → 0 < L →
  (0 < absdisc_formula d (Counter bs.*1) (Counter bs) L h c)%Q.
Proof.
  intros Hd Hne HL.
  assert (0 < sum_values (Counter bs.*1)) as HN.
  { rewrite sum_values_Counter, length_fmap. destruct bs; [done|simpl; lia]. }
  pose proof (unigram_formula_pos d (Counter bs.*1) L c Hd HN HL) as Hu.
  unfold absdisc_formula.
  destruct (bool_decide (count_of (Counter bs.*1) h = 0)) eqn:Hz; [done|].
  apply bool_decide_eq_false in Hz.
  assert (0 < count_of (Counter bs.*1) h) as Hh by lia.
  pose proof (Qnat_pos _ Hh) as Hhq.
  pose proof (Qnat_pos _ (count_continuations_pos bs h Hh)) as Hcq.
  pose proof (pymax0_nonneg (Qnat (count_of (Counter bs) (h, c)) - d)) as Hm.
  assert (0 <= pymax0 (Qnat (count_of (Counter bs) (h, c)) - d)
               / Qnat (count_of (Counter bs.*1) h))%Q.
  { apply Qle_shift_div_l; [done|]. lraQ. }
  assert (0 < d / Qnat (count_of (Counter bs.*1) h)
              * Qnat (count_keys (Counter bs)
                        (λ kv, bool_decide (kv.1.1 = h)))
              * unigram_formula d (Counter bs.*1) L c)%Q.
  { repeat apply Qmult_lt_0_compat; try done;
      by apply Qinv_lt_0_compat. }
  lraQ.
Qed.

(** [logP] on an entry that is a positive rational. *)
Lemma logP_positive (self : Phoneme_LM) (h c : symbol) (p : Q) :
  lookup2 (P self) h c = Some p → (0 < p)%Q →
  logP self h c = Ok (ln (Q2R p) / ln 2)%R.
Proof.
  intros Hp Hpos. unfold logP. rewrite (getitem2_some _ _ _ _ Hp).
  cbn [mbind result_bind]. apply pylog2_pos.
  apply Qlt_Rlt in Hpos. by rewrite RMicromega.Q2R_0 in Hpos.
Qed.

Lemma Qdiv_nonneg (a b : Q) : (0 <= a)%Q → (0 <= b)%Q → (0 <= a / b)%Q.
Proof.
  intros Ha Hb. unfold Qdiv. apply Qmult_le_0_compat; [done|].
  by apply Qinv_le_0_compat.
Qed.

Lemma unigram_formula_nonneg (d : Q) (U : gmap symbol nat) (L : nat)
    (c : symbol) :
  (0 <= d)%Q → (0 <= unigram_formula d U L c)%Q.
Proof.
  intros Hd. unfold unigram_formula.
  pose proof (pymax0_nonneg (Qnat (count_of U c) - d)) as Hm.
  pose proof (Qdiv_nonneg _ _ Hm (Qnat_nonneg (sum_values U))) as H1.
  assert (0 <= d / Qnat (sum_values U)
               * Qnat (count_keys U (λ kv, bool_decide (0 < kv.2)%nat))
               * (1 / Qnat L))%Q as H2.
  { apply Qmult_le_0_compat; [apply Qmult_le_0_compat|].
    - apply Qdiv_nonneg; [done|apply Qnat_nonneg].
    - apply Qnat_nonneg.
    - apply Qdiv_nonneg; [lraQ|apply Qnat_nonneg]. }
  lraQ.
Qed.

(** The entry of a counted bigram: the discounted count alone is positive
    when the discount is below 1, and the redistributed mass is not
    negative. *)
Lemma absdisc_formula_seen_pos (d : Q) (bs : list bigram) (L : nat)
    (h c : symbol) :
  (0 <= d)%Q → (d < 1)%Q → 0 < count_of (Counter bs) (h, c) →
  (0 < absdisc_formula d (Counter bs.*1) (Counter bs) L h c)%Q.
Proof.
  intros Hd0 Hd1 Hb.
  assert (0 < count_of (Counter bs.*1) h) as Hh.
  { pose proof (occ_bigram_le_history bs h c) as Hle.
    rewrite <- !count_of_Counter in Hle. lia. }
  unfold absdisc_formula. rewrite bool_decide_eq_false_2 by lia.
  pose proof (Qnat_pos _ Hh) as Hhq.
  pose proof (Qnat_ge_1 _ Hb) as Hbq.
  rewrite pymax0_pos by lraQ.
  assert (0 < (Qnat (count_of (Counter bs) (h, c)) - d)
              / Qnat (count_of (Counter bs.*1) h))%Q as H1.
  { apply Qlt_shift_div_l; [done|]. lraQ. }
  assert (0 <= d / Qnat (count_of (Counter bs.*1) h)
               * Qnat (count_keys (Counter bs)
                         (λ kv, bool_decide (kv.1.1 = h)))
               * unigram_formula d (Counter bs.*1) L c)%Q as H2.
  { apply Qmult_le_0_compat; [apply Qmult_le_0_compat|].
    - apply Qdiv_nonneg; [done|lraQ].
    - apply Qnat_nonneg.
    - by apply unigram_formula_nonneg. }
  lraQ.
Qed.

(** X4. Discounting never loses a bigram that was counted in training: for
    a discount [d] with [0 <= d < 1], a fitted discounting table gives every
    counted bigram over the vocabulary a strictly positive entry, since the
    discounted count [count(h,c) - d] is already positive and the
    redistributed mass is not negative.  So [logP] returns on it and never
    raises [ValueError], also for [d = 0], where an uncounted pair can hold
    0. *)
Theorem absdisc_seen_bigram_positive (ℓc ℓs : loc) (unk : bool) (d : Q)
    (σ σ' : store) (m : Phoneme_LM) (h c : symbol) :
  (0 <= d)%Q → (d < 1)%Q →
  Absdisc_Phoneme_LM_new ℓc ℓs unk d σ = (Ok m, σ') →
  h ∈ sets σ' !!! ℓs → c ∈ sets σ' !!! ℓs →
  0 < count_of (BCOUNTS m) (h, c) →
  ∃ p, getitem2 (P m) h c = Ok p ∧ (0 < p)%Q
       ∧ logP m h c = Ok (ln (Q2R p) / ln 2)%R.
Proof.
  intros Hd0 Hd1 Hnew.
  destruct (decide (corpus_bigrams (lists σ !!! ℓc) = [])) as [He|Hne].
  { by rewrite Absdisc_Phoneme_LM_new_empty in Hnew. }
  rewrite Absdisc_Phoneme_LM_new_ok in Hnew by done.
  assert (σ' = store_after ℓs true σ) as -> by congruence.
  assert (m = fitted (Absdisc d) (lists σ !!! ℓc) ℓs
                (vocabulary true (sets σ !!! ℓs))) as -> by congruence.
  clear Hnew. rewrite sets_store_after. cbn [BCOUNTS fitted].
  intros Hh Hc Hb.
  eexists.
  assert (lookup2 (P (fitted (Absdisc d) (lists σ !!! ℓc) ℓs
                        (vocabulary true (sets σ !!! ℓs)))) h c
          = Some (absdisc_formula d
                    (Counter (corpus_bigrams (lists σ !!! ℓc)).*1)
                    (Counter (corpus_bigrams (lists σ !!! ℓc)))
                    (size (vocabulary true (sets σ !!! ℓs))) h c)) as Hl.
  { cbn [P fitted]. rewrite lookup2_fill_table, decide_True; [done|].
    by rewrite !elem_of_elements. }
  assert (0 < absdisc_formula d
                (Counter (corpus_bigrams (lists σ !!! ℓc)).*1)
                (Counter (corpus_bigrams (lists σ !!! ℓc)))
                (size (vocabulary true (sets σ !!! ℓs))) h c)%Q as Hpos
    by by apply absdisc_formula_seen_pos.
  split; [by apply getitem2_some|]. split; [done|].
  by apply logP_positive.
Qed.

Lemma absdisc_seen_bigram_positive_witness :
  let σ' := store_after 0 true example_store in
  let m := fitted (Absdisc 0) (lists example_store !!! 1) 0
             (vocabulary true (sets example_store !!! 0)) in
  ∃ p, getitem2 (P m) "a" "b" = Ok p ∧ (0 < p)%Q
       ∧ logP m "a" "b" = Ok (ln (Q2R p) / ln 2)%R.
Proof.
  apply (absdisc_seen_bigram_positive 1 0 true 0 example_store
           (store_after 0 true example_store)).
  - unfold Qle. simpl. lia.
  - reflexivity.
  - apply Absdisc_Phoneme_LM_new_ok. vm_compute. discriminate.
  - compute_elem_of.
  - compute_elem_of.
  - vm_compute. lia.
Defined.

(** X5. With the discount [d = 0] nothing is redistributed: a fitted
    discounting table gives probability 0 to every pair [(h, c)] that was
    not counted when [c] never occurs as a history (so to every pair that
    ends in the unknown symbol), and [logP] raises [ValueError] on it. *)
Theorem absdisc_zero_discount (ℓc ℓs : loc) (unk : bool)
    (σ σ' : store) (m : Phoneme_LM) (h c : symbol) :
  Absdisc_Phoneme_LM_new ℓc ℓs unk 0 σ = (Ok m, σ') →
  h ∈ sets σ' !!! ℓs → c ∈ sets σ' !!! ℓs →
  count_of (UCOUNTS m) c = 0 → count_of (BCOUNTS m) (h, c) = 0 →
  ∃ p, getitem2 (P m) h c = Ok p ∧ (p == 0)%Q
       ∧ logP m h c = Err ValueError.
Proof.
  intros Hnew.
  destruct (decide (corpus_bigrams (lists σ !!! ℓc) = [])) as [He|Hne].
  { by rewrite Absdisc_Phoneme_LM_new_empty in Hnew. }
  rewrite Absdisc_Phoneme_LM_new_ok in Hnew by done.
  assert (σ' = store_after ℓs true σ) as -> by congruence.
  assert (m = fitted (Absdisc 0) (lists σ !!! ℓc) ℓs
                (vocabulary true (sets σ !!! ℓs))) as -> by congruence.
  clear Hnew. rewrite sets_store_after. cbn [UCOUNTS BCOUNTS fitted].
  intros Hh Hc Hu Hb.
  set (bs := corpus_bigrams (lists σ !!! ℓc)) in *.
  set (V := vocabulary true (sets σ !!! ℓs)) in *.
  assert (lookup2 (P (fitted (Absdisc 0) (lists σ !!! ℓc) ℓs V)) h c
          = Some (absdisc_formula 0 (Counter bs.*1) (Counter bs)
                    (size V) h c)) as Hl.
  { cbn [P fitted]. rewrite lookup2_fill_table, decide_True; [done|].
    by rewrite !elem_of_elements. }
  assert (0 < sum_values (Counter bs.*1)) as HN.
  { rewrite sum_values_Counter, length_fmap.
    destruct bs; [done|simpl; lia]. }
  assert (0 < size V) as HL
    by by apply (elements_size_pos _ h), elem_of_elements.
  pose proof (Qnat_pos _ HN) as HNq. pose proof (Qnat_pos _ HL) as HLq.
  assert (unigram_formula 0 (Counter bs.*1) (size V) c == 0)%Q as Huni.
  { unfold unigram_formula. rewrite Hu.
    rewrite (pymax0_neg (Qnat 0 - 0)) by (rewrite Qnat_0; lraQ).
    field. split; lraQ. }
  assert (absdisc_formula 0 (Counter bs.*1) (Counter bs) (size V) h c == 0)%Q
    as Hzero.
  { unfold absdisc_formula.
    destruct (bool_decide (count_of (Counter bs.*1) h = 0)) eqn:Hz; [done|].
    apply bool_decide_eq_false in Hz.
    assert (0 < count_of (Counter bs.*1) h) as Hpos by lia.
    pose proof (Qnat_pos _ Hpos) as Hhq.
    rewrite Huni, Hb.
    rewrite (pymax0_neg (Qnat 0 - 0)) by (rewrite Qnat_0; lraQ).
    field. lraQ. }
  eexists. split; [by apply getitem2_some|]. split; [done|].
  unfold logP. rewrite (getitem2_some _ _ _ _ Hl). cbn [mbind result_bind].
  unfold pylog2. apply Qeq_eqR in Hzero. rewrite Hzero, RMicromega.Q2R_0.
  destruct (Rle_dec 0 0) as [|Hn]; [done|]. exfalso. apply Hn. lraR.
Qed.

Lemma absdisc_zero_discount_witness :
  let σ' := store_after 0 true example_store in
  let m := fitted (Absdisc 0) (lists example_store !!! 1) 0
             (vocabulary true (sets example_store !!! 0)) in
  ∃ p, getitem2 (P m) "a" "$" = Ok p ∧ (p == 0)%Q
       ∧ logP m "a" "$" = Err ValueError.
Proof.
  apply (absdisc_zero_discount 1 0 true example_store
           (store_after 0 true example_store)).
  - apply Absdisc_Phoneme_LM_new_ok. vm_compute. discriminate.
  - compute_elem_of.
  - compute_elem_of.
  - by vm_compute.
  - by vm_compute.
Defined.

(** ** Perplexity of a scorable model *)

Lemma Qsum_nonneg {A : Type} (f : A → Q) (l : list A) :
  (∀ x, x ∈ l → (0 <= f x)%Q) → (0 <= Qsum f l)%Q.
Proof.
  induction l as [|x l IH]; intros Hf; simpl; [lraQ|].
  pose proof (Hf x ltac:(left)). 
  assert (0 <= Qsum f l)%Q by (apply IH; intros y Hy; apply Hf; by right).
  lraQ.
Qed.

(** A non-negative term is at most the sum it belongs to. *)
Lemma Qsum_term_le {A : Type} (f : A → Q) (l : list A) (x : A) :
  (∀ y, y ∈ l → (0 <= f y)%Q) → x ∈ l → (f x <= Qsum f l)%Q.
Proof.
  induction l as [|y l IH]; intros Hf Hx; [by inversion Hx|]. simpl.
  assert (0 <= Qsum f l)%Q
    by (apply Qsum_nonneg; intros z Hz; apply Hf; by right).
  pose proof (Hf y ltac:(left)).
  apply elem_of_cons in Hx as [->|Hx]; [lraQ|].
  assert (f x <= Qsum f l)%Q
    by (apply IH; [intros z Hz; apply Hf; by right|done]).
  lraQ.
Qed.

Lemma additive_formula_bounds (bs : list bigram) (L : nat) (h c : symbol) :
  0 < L →
  (0 < additive_formula (Counter bs.*1) (Counter bs) L h c)%Q
  ∧ (additive_formula (Counter bs.*1) (Counter bs) L h c <= 1)%Q.
Proof.
  intros HL. unfold additive_formula. rewrite !count_of_Counter.
  pose proof (occ_bigram_le_history bs h c) as Hle.
  split; [apply Qnat_div_pos; lia|].
  apply Qle_shift_div_r; [apply Qnat_pos; lia|].
  rewrite Qmult_1_l. unfold Qnat. rewrite <- Zle_Qle. lia.
Qed.

(** The table of a fitted model holds probabilities over its vocabulary. *)
Lemma fitted_entry_probability (c : estimator) (corpus : list (list symbol))
    (ℓs : loc) (V : gset symbol) (h x : symbol) :
  discount_positive c →
  corpus_closed corpus V →
  match c with Additive => True | Absdisc _ => corpus_bigrams corpus ≠ [] end →
  h ∈ V → x ∈ V →
  ∃ p, lookup2 (P (fitted c corpus ℓs V)) h x = Some p
       ∧ (0 < p)%Q ∧ (p <= 1)%Q.
Proof.
  intros Hd Hcl Hne Hh Hx.
  assert (0 < size V) as HL
    by by apply (elements_size_pos _ h), elem_of_elements.
  cbn [P fitted]. rewrite lookup2_fill_table.
  rewrite decide_True by (by rewrite !elem_of_elements).
  eexists. split; [done|]. destruct c as [|d].
  - by apply additive_formula_bounds.
  - destruct Hd as [Hd0 Hd1].
    assert (∀ y, (0 < absdisc_formula d
                        (Counter (corpus_bigrams corpus).*1)
                        (Counter (corpus_bigrams corpus)) (size V) h y)%Q)
      as Hpos by (intros y; by apply absdisc_formula_pos).
    split; [done|].
    assert (∀ b, b ∈ corpus_bigrams corpus
                 → b.1 ∈ elements V ∧ b.2 ∈ elements V) as Hcl'.
    { intros b Hb. rewrite !elem_of_elements.
      by apply (corpus_bigrams_closed corpus). }
    rewrite <- (absdisc_row_normalised (corpus_bigrams corpus) (elements V)
                  (NoDup_elements V) Hcl' d) with (h := h).
    + rewrite <- size_elements. apply Qsum_term_le.
      * intros y _. specialize (Hpos y). lraQ.
      * by apply elem_of_elements.
    + lraQ.
    + done.
    + rewrite sum_values_Counter, length_fmap.
      destruct (corpus_bigrams corpus); [done|simpl; lia].
    + by rewrite <- size_elements.
Qed.

Lemma remap_elem_of (V : gset symbol) (s : symbol) :
  "$" ∈ V → remap V s ∈ V.
Proof.
  intros Hunk. unfold remap. destruct (decide (s ∈ V)).
  - by rewrite bool_decide_eq_true_2.
  - by rewrite bool_decide_eq_false_2.
Qed.

Lemma log2_probability (p : Q) :
  (0 < p)%Q → (p <= 1)%Q → (ln (Q2R p) / ln 2 <= 0)%R.
Proof.
  intros Hp0 Hp1. apply Qlt_Rlt in Hp0. apply Qle_Rle in Hp1.
  rewrite RMicromega.Q2R_0 in Hp0. rewrite RMicromega.Q2R_1 in Hp1.
  pose proof ln_2_pos as H2.
  assert (ln (Q2R p) <= 0)%R as Hln.
  { destruct Hp1 as [Hlt|Heq].
    - pose proof (ln_increasing _ _ Hp0 Hlt) as Hl. rewrite ln_1 in Hl. lraR.
    - rewrite Heq, ln_1. lraR. }
  apply Rmult_le_reg_r with (ln 2); [done|].
  unfold Rdiv. rewrite Rmult_assoc, Rinv_l by lraR. lraR.
Qed.

(** Scoring bigrams of a scorable model adds non-positive terms and counts
    every bigram. *)
Lemma score_fold (self : Phoneme_LM) (V : gset symbol) (bs : list bigram)
    (acc : R * nat) :
  "$" ∈ V →
  (∀ h c, h ∈ V → c ∈ V →
     ∃ p, lookup2 (P self) h c = Some p ∧ (0 < p)%Q ∧ (p <= 1)%Q) →
  ∃ lp, foldM (score self V) acc bs = Ok (lp, acc.2 + length bs)
        ∧ (lp <= acc.1)%R.
Proof.
  intros Hunk Htab. revert acc.
  induction bs as [|[h c] bs IH]; intros acc; cbn [foldM length].
  - exists acc.1. destruct acc as [lp M]. simpl.
    rewrite Nat.add_0_r. split; [done|lraR].
  - destruct (Htab (remap V h) (remap V c)) as (p & Hp & Hp0 & Hp1);
      [by apply remap_elem_of..|].
    assert (score self V acc (h, c)
            = Ok ((acc.1 + ln (Q2R p) / ln 2)%R, acc.2 + 1)) as ->.
    { unfold score. cbn [fst snd].
      by rewrite (logP_positive _ _ _ _ Hp Hp0). }
    cbn [mbind result_bind].
    destruct (IH ((acc.1 + ln (Q2R p) / ln 2)%R, acc.2 + 1))
      as (lp & Hlp & Hle).
    exists lp. cbn [fst snd] in *.
    replace (acc.2 + S (length bs)) with (acc.2 + 1 + length bs) by lia.
    split; [done|]. pose proof (log2_probability p Hp0 Hp1). lraR.
Qed.

Lemma pypow2_ge_1 (y : R) : (0 <= y)%R → (1 <= pypow2 y)%R.
Proof.
  intros Hy. unfold pypow2, Rpower.
  pose proof (exp_ineq1_le (y * ln 2)) as Hexp.
  pose proof ln_2_pos.
  assert (0 <= y * ln 2)%R by (apply Rmult_le_pos; lraR). lraR.
Qed.

Lemma perplexity_scorable (self : Phoneme_LM) (σ : store)
    (test_corpus : list (list symbol)) :
  scorable self σ → corpus_bigrams test_corpus ≠ [] →
  ∃ pp, perplexity self σ test_corpus = Ok pp
        ∧ (1 <= pp)%R
        ∧ surprisal self σ test_corpus = Ok (ln pp / ln 2)%R
        ∧ (0 <= ln pp / ln 2)%R.
Proof.
  intros [Hunk Htab] Hne.
  destruct (score_fold self _ (corpus_bigrams test_corpus) (0%R, 0)
              Hunk Htab) as (lp & Hlp & Hle).
  cbn [fst snd] in *.
  assert (0 < length (corpus_bigrams test_corpus)) as HM
    by (destruct (corpus_bigrams test_corpus); [done|simpl; lia]).
  set (M := length (corpus_bigrams test_corpus)) in *.
  assert (perplexity self σ test_corpus
          = Ok (pypow2 ((-1 / INR M) * lp)%R)) as Hpp.
  { unfold perplexity. rewrite perplexity_loop_bigrams, Hlp.
    cbn [mbind result_bind fst snd].
    rewrite bool_decide_eq_false_2 by lia. done. }
  assert (0 <= (-1 / INR M) * lp)%R as Hexp.
  { pose proof (lt_0_INR M HM) as HMr.
    replace (-1 / INR M * lp)%R with ((- lp) * / INR M)%R
      by (field; lraR).
    apply Rmult_le_pos; [lraR|].
    apply Rlt_le, Rinv_0_lt_compat. done. }
  eexists. split; [exact Hpp|]. split; [by apply pypow2_ge_1|].
  split.
  - unfold surprisal. rewrite Hpp. cbn [mbind result_bind].
    apply pylog2_pos, pypow2_pos.
  - by rewrite log2_pypow2.
Qed.

Lemma corpus_bigrams_nonempty (corpus : list (list symbol)) :
  Exists (λ w, 2 ≤ length w) corpus → corpus_bigrams corpus ≠ [].
Proof.
  unfold corpus_bigrams. induction 1 as [w ws Hw|w ws _ IH]; simpl.
  - destruct w as [|a [|b t]]; simpl in *; [lia|lia|done].
  - intros Happ. apply app_eq_nil in Happ as [_ Hnil]. by apply IH.
Qed.

(** X6. A model fitted by additive smoothing whose vocabulary holds the
    unknown symbol (it always does when the model is built with
    [unk=True]) scores every held-out corpus that has a sequence of two
    symbols or more, whatever the training corpus was and whatever symbols
    the held-out corpus holds: every entry that is looked up is greater
    than 0 and at most 1, so perplexity returns a value that is at least 1,
    and surprisal returns its base-2 logarithm, which is at least 0.  No
    exception is raised. *)
Theorem additive_perplexity_defined (ℓc ℓs : loc) (unk : bool)
    (σ σ' : store) (m : Phoneme_LM) (test_corpus : list (list symbol)) :
  Phoneme_LM_new ℓc ℓs unk σ = (Ok m, σ') →
  "$" ∈ sets σ' !!! ℓs →
  Exists (λ w, 2 ≤ length w) test_corpus →
  ∃ pp, perplexity m σ' test_corpus = Ok pp
        ∧ (1 <= pp)%R
        ∧ surprisal m σ' test_corpus = Ok (ln pp / ln 2)%R
        ∧ (0 <= ln pp / ln 2)%R.
Proof.
  intros Hnew Hunk Htc. rewrite Phoneme_LM_new_total in Hnew.
  assert (σ' = store_after ℓs unk σ) as -> by congruence.
  assert (m = fitted Additive (lists σ !!! ℓc) ℓs
                (vocabulary unk (sets σ !!! ℓs))) as -> by congruence.
  clear Hnew. rewrite sets_store_after in Hunk.
  apply perplexity_scorable; [|by apply corpus_bigrams_nonempty].
  unfold scorable. cbn [phoneme_set fitted]. rewrite sets_store_after.
  split; [done|]. intros h x Hh Hx.
  cbn [P fitted]. rewrite lookup2_fill_table.
  rewrite decide_True by (by rewrite !elem_of_elements).
  eexists. split; [done|]. apply additive_formula_bounds.
  by apply (elements_size_pos _ h), elem_of_elements.
Qed.

Lemma additive_perplexity_defined_witness :
  let σ' := store_after 0 true example_store in
  let m := fitted Additive (lists example_store !!! 1) 0
             (vocabulary true (sets example_store !!! 0)) in
  ∃ pp, perplexity m σ' [["#"; "x"; "a"; "@"]; ["b"]] = Ok pp
        ∧ (1 <= pp)%R
        ∧ surprisal m σ' [["#"; "x"; "a"; "@"]; ["b"]] = Ok (ln pp / ln 2)%R
        ∧ (0 <= ln pp / ln 2)%R.
Proof.
  apply (additive_perplexity_defined 1 0 true example_store).
  - apply Phoneme_LM_new_total.
  - compute_elem_of.
  - left. simpl. lia.
Defined.

(** ** Missing entries *)

(** A loop whose body can only raise [e], and does raise it on some item,
    raises [e]. *)
Lemma foldM_raise_some {S A : Type} (body : S → A → result S) (e : exn)
    (l : list A) (s : S) :
  (∀ s x, x ∈ l → (∃ s', body s x = Ok s') ∨ body s x = Err e) →
  Exists (λ x, ∀ s, body s x = Err e) l →
  foldM body s l = Err e.
Proof.
  intros Hbody Hex. revert s Hbody.
  induction Hex as [x l Hx|x l _ IH]; intros s Hbody; simpl.
  - by rewrite Hx.
  - destruct (Hbody s x ltac:(left)) as [[s' ->]| ->]; [|done].
    simpl. apply IH. intros s'' y Hy. apply Hbody. by right.
Qed.

Lemma getitem2_none (P : table) (h c : symbol) :
  lookup2 P h c = None → getitem2 P h c = Err KeyError.
Proof. intros Hp. by rewrite getitem2_lookup2, Hp. Qed.

Lemma getitem2_cases (P : table) (h c : symbol) :
  (∃ p, getitem2 P h c = Ok p) ∨ getitem2 P h c = Err KeyError.
Proof.
  rewrite getitem2_lookup2. destruct (lookup2 P h c); [left; eauto|by right].
Qed.

(** Summing a row over a list that holds a missing key raises [KeyError]. *)
Lemma row_sum_missing (P : table) (h x : symbol) (l : list symbol) :
  x ∈ l → lookup2 P h x = None → row_sum P h l = Err KeyError.
Proof.
  intros Hx Hnone. unfold row_sum. apply foldM_raise_some.
  - intros s c _. destruct (getitem2_cases P h c) as [[p ->]| ->];
      [left; by eexists|by right].
  - apply Exists_exists. exists x. split; [done|]. intros s.
    by rewrite getitem2_none.
Qed.

(** The validator raises [KeyError] when the vocabulary holds a symbol
    without a column in the table. *)
Lemma test_missing_column (self : Phoneme_LM) (σ : store) (x : symbol) :
  x ∈ sets σ !!! phoneme_set self →
  (∀ h, lookup2 (P self) h x = None) →
  test self σ = Err KeyError.
Proof.
  intros Hx Hnone. unfold test. cbv zeta.
  apply elem_of_elements in Hx.
  destruct (elements (sets σ !!! phoneme_set self)) as [|h0 l] eqn:Hel;
    [by inversion Hx|].
  cbn [foldM]. by rewrite (row_sum_missing _ h0 x (h0 :: l) Hx (Hnone h0)).
Qed.

Lemma lookup2_fitted_outside (c : estimator) (corpus : list (list symbol))
    (ℓs : loc) (V : gset symbol) (h x : symbol) :
  h ∉ V ∨ x ∉ V → lookup2 (P (fitted c corpus ℓs V)) h x = None.
Proof.
  intros Hout. cbn [P fitted]. rewrite lookup2_fill_table.
  rewrite decide_False; [apply lookup2_empty|].
  rewrite !elem_of_elements. intros [? ?]. by destruct Hout.
Qed.

(** X7. The additive model built with [unk=False] from a vocabulary without
    ["$"] cannot score a symbol it has not seen: on a held-out corpus with
    an adjacent pair that holds a symbol outside the vocabulary, perplexity
    and surprisal raise [KeyError]. *)
Theorem unknown_symbol_without_unk (ℓc ℓs : loc) (σ : store)
    (test_corpus : list (list symbol)) :
  let r := Phoneme_LM_new ℓc ℓs false σ in
  let V := sets σ !!! ℓs in
  "$" ∉ V →
  Exists (λ p, p.1 ∉ V ∨ p.2 ∉ V) (corpus_bigrams test_corpus) →
  ∃ m, r.1 = Ok m
       ∧ perplexity m r.2 test_corpus = Err KeyError
       ∧ surprisal m r.2 test_corpus = Err KeyError.
Proof.
  cbv zeta. rewrite Phoneme_LM_new_total. cbn [fst snd].
  unfold store_after, vocabulary. intros Hunk Hex.
  eexists. split; [done|].
  set (V := sets σ !!! ℓs) in *.
  set (m := fitted Additive (lists σ !!! ℓc) ℓs V).
  assert (perplexity m σ test_corpus = Err KeyError) as Hpp.
  { unfold perplexity. rewrite perplexity_loop_bigrams.
    cbn [phoneme_set fitted m]. fold V.
    rewrite (foldM_raise_some (score m V) KeyError); [done| |].
    - intros acc [h c] _. unfold score. cbn [fst snd].
      destruct (decide (remap V h ∈ V ∧ remap V c ∈ V)) as [[Hh Hc]|Hout].
      + left.
        assert (0 < size V) as HL
          by by apply (elements_size_pos _ (remap V h)), elem_of_elements.
        rewrite (logP_positive m _ _
                   (additive_formula
                      (Counter (corpus_bigrams (lists σ !!! ℓc)).*1)
                      (Counter (corpus_bigrams (lists σ !!! ℓc)))
                      (size V) (remap V h) (remap V c))).
        * by eexists.
        * cbn [P fitted m]. rewrite lookup2_fill_table, decide_True; [done|].
          by rewrite !elem_of_elements.
        * by apply additive_formula_bounds.
      + right. unfold logP. rewrite getitem2_none; [done|].
        apply lookup2_fitted_outside.
        destruct (decide (remap V h ∈ V)) as [Hh|Hh]; [|by left].
        right. intros Hc. by apply Hout.
    - eapply Exists_impl; [exact Hex|]. intros [h c] Hout acc.
      cbn [fst snd] in Hout. unfold score, logP. cbn [fst snd].
      rewrite getitem2_none; [done|]. apply lookup2_fitted_outside.
      unfold remap. destruct Hout as [Hh|Hc].
      + left. by rewrite bool_decide_eq_false_2.
      + right. by rewrite bool_decide_eq_false_2. }
  split; [done|]. unfold surprisal. by rewrite Hpp.
Qed.

Lemma unknown_symbol_without_unk_witness :
  let r := Phoneme_LM_new 1 0 false example_store in
  ∃ m, r.1 = Ok m
       ∧ perplexity m r.2 [["#"; "a"; "x"; "@"]] = Err KeyError
       ∧ surprisal m r.2 [["#"; "a"; "x"; "@"]] = Err KeyError.
Proof.
  apply (unknown_symbol_without_unk 1 0 example_store
           [["#"; "a"; "x"; "@"]]).
  - intros Hin. apply (bool_decide_pack _) in Hin. vm_compute in Hin.
    exact Hin.
  - right. left. right. cbn [snd]. intros Hin.
    apply (bool_decide_pack _) in Hin. vm_compute in Hin. exact Hin.
Defined.

(** X8. The model shares its vocabulary with the caller.  When a model was
    built with [unk=False] from a set without ["$"], building a second
    model (of either class) with [unk=True] from the same set object adds
    ["$"] to the vocabulary of the first one too, whose table has no entry
    for it: its validator now raises [KeyError]. *)
Theorem shared_vocabulary (c : estimator) (ℓc ℓc' ℓs : loc) (σ : store) :
  "$" ∉ sets σ !!! ℓs →
  let r1 := Phoneme_LM_new ℓc ℓs false σ in
  let r2 := new_model c ℓc' ℓs true r1.2 in
  ∃ m1, r1.1 = Ok m1
        ∧ phoneme_set m1 = ℓs
        ∧ "$" ∈ sets r2.2 !!! ℓs
        ∧ test m1 r2.2 = Err KeyError.
Proof.
  intros Hunk. cbv zeta. rewrite new_model_store.
  rewrite Phoneme_LM_new_total. cbn [fst snd].
  assert (match c with Additive => true | Absdisc _ => true end = true)
    as -> by (by destruct c).
  replace (store_after ℓs false σ) with σ by done.
  eexists. split; [done|]. split; [done|].
  assert ("$" ∈ sets (store_after ℓs true σ) !!! ℓs) as Hin.
  { rewrite sets_store_after. unfold vocabulary.
    apply elem_of_union. left. by apply elem_of_singleton. }
  split; [done|].
  apply (test_missing_column _ _ "$"); [done|].
  intros h. apply lookup2_fitted_outside. by right.
Qed.

Lemma shared_vocabulary_witness :
  let r1 := Phoneme_LM_new 1 0 false example_store in
  let r2 := new_model (Absdisc (1 # 2)) 1 0 true r1.2 in
  ∃ m1, r1.1 = Ok m1
        ∧ phoneme_set m1 = 0
        ∧ "$" ∈ sets r2.2 !!! 0
        ∧ test m1 r2.2 = Err KeyError.
Proof.
  apply (shared_vocabulary (Absdisc (1 # 2)) 1 1 0 example_store).
  intros Hin. apply (bool_decide_pack _) in Hin. vm_compute in Hin.
  exact Hin.
Defined.

(** ** The validator *)

Lemma test_loop_ok (P : table) (V l : list symbol) :
  foldM (λ _ ph1,
           P_sum ← row_sum P ph1 V;
           if Qlt_le_dec (Qabs (1 - P_sum)) precision then Ok tt
           else Err AssertionError) tt l = Ok tt
  ↔ ∀ h, h ∈ l → ∃ s, row_sum P h V = Ok s
                       ∧ (Qabs (1 - s) < precision)%Q.
Proof.
  induction l as [|h0 l IH]; cbn [foldM].
  - split; [by intros _ h Hh; inversion Hh|done].
  - destruct (row_sum P h0 V) as [s|e] eqn:Hs; cbn [mbind result_bind].
    + destruct (Qlt_le_dec (Qabs (1 - s)) precision) as [Hlt|Hge].
      * etrans; [exact IH|]. split.
        -- intros Hl h Hh. apply elem_of_cons in Hh as [->|Hh];
             [by exists s|by apply Hl].
        -- intros Hl h Hh. apply Hl. by right.
      * split; [done|]. intros Hl.
        destruct (Hl h0 ltac:(left)) as (s' & Hs' & Hlt).
        rewrite Hs in Hs'. injection Hs' as <-. lraQ.
    + split; [done|]. intros Hl.
      destruct (Hl h0 ltac:(left)) as (s' & Hs' & _). by rewrite Hs in Hs'.
Qed.

Lemma row_sum_cases (P : table) (h : symbol) (l : list symbol) :
  (∃ s, row_sum P h l = Ok s) ∨ row_sum P h l = Err KeyError.
Proof.
  unfold row_sum. generalize 0%Q.
  induction l as [|c l IH]; intros acc; cbn [foldM]; [left; by eexists|].
  destruct (getitem2_cases P h c) as [[p ->]| ->]; [|by right].
  cbn [mbind result_bind]. apply IH.
Qed.

Lemma test_loop_cases (P : table) (V l : list symbol) :
  let r := foldM (λ _ ph1,
                    P_sum ← row_sum P ph1 V;
                    if Qlt_le_dec (Qabs (1 - P_sum)) precision then Ok tt
                    else Err AssertionError) tt l in
  r = Ok tt ∨ r = Err AssertionError ∨ r = Err KeyError.
Proof.
  cbv zeta. induction l as [|h0 l IH]; cbn [foldM]; [by left|].
  destruct (row_sum_cases P h0 V) as [[s ->]| ->]; [|by right; right].
  cbn [mbind result_bind].
  destruct (Qlt_le_dec (Qabs (1 - s)) precision); [exact IH|by right; left].
Qed.

(** X9. The validator returns normally exactly when, for every symbol of the
    vocabulary, every entry of its row over the vocabulary is present and
    the row sums to within [1e-10] of 1; otherwise it raises
    [AssertionError] or [KeyError]. *)
Theorem test_passes_iff (self : Phoneme_LM) (σ : store) :
  let V := sets σ !!! phoneme_set self in
  (test self σ = Ok tt
   ↔ ∀ h, h ∈ V → ∃ s, row_sum (P self) h (elements V) = Ok s
                        ∧ (Qabs (1 - s) < precision)%Q)
  ∧ (test self σ = Ok tt
     ∨ test self σ = Err AssertionError
     ∨ test self σ = Err KeyError).
Proof.
  cbv zeta. split.
  - unfold test. cbv zeta. etrans; [apply test_loop_ok|].
    split; intros Hl h Hh; apply Hl; by apply elem_of_elements.
  - apply test_loop_cases.
Qed.

(** ** Sequences without a bigram *)

Lemma corpus_bigrams_filter (corpus : list (list symbol)) :
  corpus_bigrams (filter (λ w, 2 ≤ length w) corpus) = corpus_bigrams corpus.
Proof.
  unfold corpus_bigrams. induction corpus as [|w ws IH]; [done|].
  rewrite filter_cons. destruct (decide (2 ≤ length w)) as [Hw|Hw].
  - simpl. f_equal. exact IH.
  - simpl. rewrite adjacent_short by lia. exact IH.
Qed.

Lemma fitted_bigrams (c : estimator) (corpus corpus' : list (list symbol))
    (ℓs : loc) (V : gset symbol) :
  corpus_bigrams corpus = corpus_bigrams corpus' →
  fitted c corpus ℓs V = fitted c corpus' ℓs V.
Proof. intros Hbs. unfold fitted. by rewrite Hbs. Qed.

(** X10. Sequences of fewer than two symbols have no effect: removing them
    from the training corpus gives the same result of construction (the same
    model, or the same exception), and removing them from a held-out corpus
    gives the same result of perplexity and of surprisal. *)
Theorem short_sequences_ignored (c : estimator) (ℓc ℓs : loc) (unk : bool)
    (σ : store) (self : Phoneme_LM) (test_corpus : list (list symbol)) :
  (new_model c ℓc ℓs unk (without_short_sequences ℓc σ)).1
  = (new_model c ℓc ℓs unk σ).1
  ∧ perplexity self σ (filter (λ w, 2 ≤ length w) test_corpus)
    = perplexity self σ test_corpus
  ∧ surprisal self σ (filter (λ w, 2 ≤ length w) test_corpus)
    = surprisal self σ test_corpus.
Proof.
  assert (lists (without_short_sequences ℓc σ) !!! ℓc
          = filter (λ w, 2 ≤ length w) (lists σ !!! ℓc)) as Hl.
  { unfold without_short_sequences. simpl.
    by rewrite lookup_total_insert_eq. }
  assert (∀ u, sets (store_after ℓs u (without_short_sequences ℓc σ))
               = sets (store_after ℓs u σ)) as Hsets.
  { by intros []. }
  assert (perplexity self σ (filter (λ w, 2 ≤ length w) test_corpus)
          = perplexity self σ test_corpus) as Hpp.
  { unfold perplexity.
    by rewrite !perplexity_loop_bigrams, corpus_bigrams_filter. }
  split_and!; [|done|unfold surprisal; by rewrite Hpp].
  destruct c as [|d]; simpl.
  - rewrite !Phoneme_LM_new_total. cbn [fst]. f_equal.
    rewrite Hl. apply fitted_bigrams. apply corpus_bigrams_filter.
  - destruct (decide (corpus_bigrams (lists σ !!! ℓc) = [])) as [He|Hne].
    + rewrite !Absdisc_Phoneme_LM_new_empty; [done|done|].
      by rewrite Hl, corpus_bigrams_filter.
    + rewrite !Absdisc_Phoneme_LM_new_ok; [|done|].
      2:{ by rewrite Hl, corpus_bigrams_filter. }
      cbn [fst]. f_equal. rewrite Hl. apply fitted_bigrams.
      apply corpus_bigrams_filter.
Qed.



(** * Properties of the corpus reader *)

Section reader.
Context `{Charset char}.
Implicit Types (s t cur line : list char) (file LangIDs : list (list char)).

Lemma length_split_on (sep : char) s :
  length (split_on sep s) = S (occ sep s).
Proof.
  induction s as [|c s IH]; [done|]. rewrite occ_cons. simpl.
  destruct (decide (c = sep)); simpl; [by rewrite IH|].
  destruct (split_on sep s); simpl in *; lia.
Qed.

(** A closing [" @"] adds the end marker as the last word. *)
Lemma split_ws_from_end cur t :
  split_ws_from cur (t ++ [SPACE; AT]) = split_ws_from cur t ++ [[AT]].
Proof.
  revert cur. induction t as [|a t IH]; intros cur.
  - cbn [app split_ws_from]. rewrite isspace_SPACE, isspace_AT.
    by destruct cur.
  - cbn [app split_ws_from].
    destruct (isspace a); [destruct cur|]; by rewrite IH.
Qed.

(** The bracketed transcription splits into the start marker, the phonemes
    and the end marker. *)
Lemma split_ws_bracketed t :
  split_ws ([HASH; SPACE] ++ t ++ [SPACE; AT])
  = [HASH] :: split_ws t ++ [[AT]].
Proof.
  unfold split_ws. cbn [app split_ws_from].
  rewrite isspace_HASH, isspace_SPACE. by rewrite split_ws_from_end.
Qed.

(** The words of [split()] are not empty and hold no whitespace. *)
Lemma split_ws_from_tokens cur s tok :
  Forall (λ c, isspace c = false) cur →
  tok ∈ split_ws_from cur s →
  tok ≠ [] ∧ Forall (λ c, isspace c = false) tok.
Proof.
  revert cur. induction s as [|a s IH]; intros cur Hcur; simpl.
  - destruct cur as [|c cur]; [by inversion 1|].
    intros ->%list_elem_of_singleton. split.
    + intros Hnil. apply (f_equal length) in Hnil.
      rewrite length_reverse in Hnil. done.
    + by apply Forall_reverse.
  - destruct (isspace a) eqn:Ha.
    + destruct cur as [|c cur]; [by apply IH|].
      intros [->|Hin]%elem_of_cons; [|by apply (IH [])].
      split.
      * intros Hnil. apply (f_equal length) in Hnil.
        rewrite length_reverse in Hnil. done.
      * by apply Forall_reverse.
    + apply IH. by constructor.
Qed.

Lemma split_ws_tokens s tok :
  tok ∈ split_ws s → tok ≠ [] ∧ Forall (λ c, isspace c = false) tok.
Proof. apply split_ws_from_tokens. constructor. Qed.

(** One line, in closed form. *)
Lemma read_line_eq LangIDs
    (dataset : gmap (list char) (list (list (list char)))) line :
  read_line LangIDs dataset line
  = if bool_decide (length (split_on TAB (strip line)) < 4)
    then Err IndexError
    else Ok match line_entry LangIDs line with
            | Some (ID, w) => <[ID := (dataset !!! ID) ++ [w]]> dataset
            | None => dataset
            end.
Proof.
  unfold read_line, line_entry. cbv zeta.
  set (instance := split_on TAB (strip line)).
  destruct instance as [|f0 [|f1 [|f2 [|f3 fs]]]] eqn:Hi; try done.
  rewrite bool_decide_eq_false_2 by (simpl; lia).
  unfold getitem. cbn [lookup list_lookup mbind result_bind option_bind].
  rewrite split_ws_bracketed.
  cbn [length]. rewrite length_app. cbn [length].
  destruct (decide (f0 ∈ LangIDs)) as [Hin|Hin].
  - rewrite bool_decide_eq_true_2 by done.
    destruct (decide (2 ≤ length (split_ws f3))) as [Hlen|Hlen].
    + rewrite bool_decide_eq_false_2 by lia.
      by rewrite bool_decide_eq_true_2.
    + rewrite bool_decide_eq_true_2 by lia.
      rewrite bool_decide_eq_false_2; [done|]. by intros [_ ?].
  - rewrite bool_decide_eq_false_2 by done.
    rewrite bool_decide_eq_false_2; [done|]. by intros [? _].
Qed.

Lemma read_data_from LangIDs file
    (d0 d : gmap (list char) (list (list (list char)))) :
  foldM (read_line LangIDs) d0 file = Ok d →
  ∀ ID, d !!! ID = d0 !!! ID ++ words_of LangIDs file ID.
Proof.
  revert d0. induction file as [|line file IH]; intros d0; cbn [foldM].
  - intros [= <-] ID. unfold words_of. simpl. by rewrite app_nil_r.
  - rewrite read_line_eq.
    destruct (bool_decide (length (split_on TAB (strip line)) < 4));
      [done|].
    cbn [mbind result_bind]. intros Hd ID. rewrite (IH _ Hd ID).
    unfold words_of. cbn [omap list_omap].
    destruct (line_entry LangIDs line) as [[ID' w]|]; [|done].
    rewrite filter_cons. cbn [fst].
    destruct (decide (ID' = ID)) as [->|Hne].
    + rewrite lookup_total_insert_eq, fmap_cons. cbn [snd].
      by rewrite <- app_assoc.
    + by rewrite lookup_total_insert_ne.
Qed.

Lemma read_data_keys LangIDs file
    (d0 d : gmap (list char) (list (list (list char)))) :
  foldM (read_line LangIDs) d0 file = Ok d →
  (∀ ID ws, d0 !! ID = Some ws → ws ≠ []) →
  ∀ ID ws, d !! ID = Some ws → ws ≠ [].
Proof.
  revert d0. induction file as [|line file IH]; intros d0; cbn [foldM].
  - by intros [= <-].
  - rewrite read_line_eq.
    destruct (bool_decide (length (split_on TAB (strip line)) < 4));
      [done|].
    cbn [mbind result_bind]. intros Hd Hd0. apply (IH _ Hd).
    destruct (line_entry LangIDs line) as [[ID' w]|]; [|done].
    intros ID ws. destruct (decide (ID' = ID)) as [->|Hne].
    + rewrite lookup_insert_eq. intros [= <-]. by destruct (d0 !!! ID).
    + rewrite lookup_insert_ne by done. apply Hd0.
Qed.

Lemma line_entry_shape LangIDs line (ID : list char) (w : list (list char)) :
  line_entry LangIDs line = Some (ID, w) →
  ID ∈ LangIDs
  ∧ ∃ t, w = [HASH] :: split_ws t ++ [[AT]] ∧ 2 ≤ length (split_ws t).
Proof.
  unfold line_entry. cbv zeta.
  destruct (split_on TAB (strip line) !! 0) as [ID'|]; [|done].
  destruct (split_on TAB (strip line) !! 3) as [t|]; [|done].
  cbn [mbind option_bind].
  destruct (decide (ID' ∈ LangIDs ∧ 2 ≤ length (split_ws t))) as [[? ?]|?].
  - rewrite bool_decide_eq_true_2 by done. intros [= <- <-]. eauto.
  - by rewrite bool_decide_eq_false_2.
Qed.

(** X12. When [read_data] returns, the list filed under each language is
    the list of the words of the lines of that language, in the order of
    the lines: a line contributes its fourth tab-separated field, split at
    whitespace and bracketed by ["#"] and ["@"], when its first field is
    one of [LangIDs] and the field holds two phonemes or more.  A language
    is a key of the result exactly when it has a word. *)
Theorem read_data_words LangIDs file
    (d : gmap (list char) (list (list (list char)))) :
  read_data file LangIDs = Ok d →
  ∀ ID, d !!! ID = words_of LangIDs file ID
        ∧ (is_Some (d !! ID) ↔ words_of LangIDs file ID ≠ []).
Proof.
  intros Hd ID.
  pose proof (read_data_from LangIDs file ∅ d Hd ID) as Hw.
  rewrite lookup_total_empty in Hw. simpl in Hw.
  split; [done|]. rewrite <- Hw. split.
  - intros [ws Hws].
    pose proof (read_data_keys LangIDs file ∅ d Hd) as Hne.
    rewrite (lookup_total_correct _ _ _ Hws). eapply Hne; [|done].
    intros ID' ws'. by rewrite lookup_empty.
  - intros Hne. destruct (d !! ID) as [ws|] eqn:Hws; [by eexists|].
    exfalso. apply Hne. by rewrite lookup_total_alt, Hws.
Qed.

(** X13. Every word [read_data] returns is fit for the models: it belongs
    to a requested language, starts with the marker ["#"], ends with the
    marker ["@"], has four symbols or more, and none of its symbols is
    empty or holds whitespace; no language is filed with an empty list. *)
Theorem read_data_invariant LangIDs file
    (d : gmap (list char) (list (list (list char))))
    (ID : list char) (ws : list (list (list char))) :
  read_data file LangIDs = Ok d →
  d !! ID = Some ws →
  ID ∈ LangIDs ∧ ws ≠ []
  ∧ Forall (λ w, 4 ≤ length w
                 ∧ head w = Some [HASH] ∧ last w = Some [AT]
                 ∧ Forall (λ tok, tok ≠ []
                                  ∧ Forall (λ c, isspace c = false) tok) w)
      ws.
Proof.
  intros Hd Hws.
  pose proof (read_data_from LangIDs file ∅ d Hd ID) as Hw.
  rewrite lookup_total_empty, (lookup_total_correct _ _ _ Hws) in Hw.
  simpl in Hw.
  assert (ws ≠ []) as Hne.
  { eapply (read_data_keys LangIDs file ∅ d Hd); [|exact Hws].
    intros ID' ws'. by rewrite lookup_empty. }
  assert (∀ w, w ∈ ws →
            ID ∈ LangIDs
            ∧ ∃ t, w = [HASH] :: split_ws t ++ [[AT]]
                   ∧ 2 ≤ length (split_ws t)) as Hshape.
  { intros w. rewrite Hw. unfold words_of.
    intros ([ID' w'] & -> & Hin)%list_elem_of_fmap.
    apply list_elem_of_filter in Hin as [Heq Hin]. cbn [fst snd] in *.
    subst ID'. apply list_elem_of_omap in Hin as (line & _ & Hline).
    by apply (line_entry_shape _ line). }
  split_and!; [|done|].
  - destruct ws as [|w ws']; [done|]. by apply (Hshape w); left.
  - apply Forall_forall. intros w Hin.
    destruct (Hshape w Hin) as (_ & t & -> & Hlen). split_and!.
    + cbn [length]. rewrite length_app. cbn [length]. lia.
    + done.
    + change ([HASH] :: split_ws t ++ [[AT]])
        with (([HASH] :: split_ws t) ++ [[AT]]).
      by rewrite last_snoc.
    + constructor.
      * split; [done|]. constructor; [apply isspace_HASH|constructor].
      * apply Forall_app. split.
        -- apply Forall_forall. intros tok. apply split_ws_tokens.
        -- constructor; [|constructor]. split; [done|].
           constructor; [apply isspace_AT|constructor].
Qed.

(** X14. [read_data] returns exactly when every line, stripped, has four
    tab-separated fields or more, that is three tab characters or more;
    otherwise (a blank line, for one) it raises [IndexError], whatever the
    language of the line. *)
Theorem read_data_short_line LangIDs file :
  (Forall (λ line, 3 ≤ occ TAB (strip line)) file
   → ∃ d, read_data file LangIDs = Ok d)
  ∧ (Exists (λ line, occ TAB (strip line) < 3) file
     → read_data file LangIDs = Err IndexError).
Proof.
  split.
  - unfold read_data. intros Hall.
    generalize (∅ : gmap (list char) (list (list (list char)))).
    induction Hall as [|line file Hline _ IH]; intros d0; cbn [foldM].
    + by eexists.
    + rewrite read_line_eq.
      rewrite bool_decide_eq_false_2 by (rewrite length_split_on; lia).
      cbn [mbind result_bind]. apply IH.
  - intros Hex. unfold read_data. apply foldM_raise_some.
    + intros d0 line _. rewrite read_line_eq.
      destruct (bool_decide _); [by right|left; by eexists].
    + eapply Exists_impl; [exact Hex|]. intros line Hline d0.
      cbv beta in Hline. rewrite read_line_eq.
      by rewrite bool_decide_eq_true_2 by (rewrite length_split_on; lia).
Qed.

End reader.

Lemma example_file_read :
  read_data example_file [list_ascii_of_string "rus"] = Ok example_dataset.
Proof. vm_compute. reflexivity. Qed.

Lemma read_data_words_witness :
  let ID := list_ascii_of_string "rus" in
  example_dataset !!! ID
  = words_of [list_ascii_of_string "rus"] example_file ID
  ∧ (is_Some (example_dataset !! ID)
     ↔ words_of [list_ascii_of_string "rus"] example_file ID ≠ []).
Proof.
  exact (read_data_words [list_ascii_of_string "rus"] example_file
           example_dataset example_file_read (list_ascii_of_string "rus")).
Defined.

Lemma read_data_invariant_witness :
  let ws := [[list_ascii_of_string "#"; list_ascii_of_string "a";
              list_ascii_of_string "b"; list_ascii_of_string "@"]] in
  list_ascii_of_string "rus" ∈ [list_ascii_of_string "rus"] ∧ ws ≠ []
  ∧ Forall (λ w, 4 ≤ length w
                 ∧ head w = Some [HASH] ∧ last w = Some [AT]
                 ∧ Forall (λ tok, tok ≠ []
                                  ∧ Forall (λ c, isspace c = false) tok) w)
      ws.
Proof.
  apply (read_data_invariant [list_ascii_of_string "rus"] example_file
           example_dataset (list_ascii_of_string "rus")).
  - exact example_file_read.
  - by vm_compute.
Defined.

(** * Properties of the report *)

Lemma phoneme_set_of_closed (T : list (list symbol)) :
  corpus_closed T (phoneme_set_of T).
Proof.
  unfold corpus_closed, phoneme_set_of.
  induction T as [|w T IH]; constructor.
  - apply Forall_forall. intros x Hx. apply elem_of_list_to_set.
    simpl. apply elem_of_app. by left.
  - eapply Forall_impl; [exact IH|]. intros w' Hw'.
    eapply Forall_impl; [exact Hw'|]. intros x Hx.
    apply elem_of_list_to_set. simpl. apply elem_of_app. right.
    by apply elem_of_list_to_set in Hx.
Qed.

Lemma has_bigram_cases (corpus : list (list symbol)) :
  has_bigram corpus ∨ corpus_bigrams corpus = [].
Proof.
  unfold has_bigram.
  destruct (decide (Exists (λ w, 2 ≤ length w) corpus)) as [|Hno];
    [by left|right].
  apply corpus_bigrams_short. apply Forall_forall. intros w Hw.
  destruct (decide (length w < 2)) as [|Hlen]; [done|].
  exfalso. apply Hno. apply Exists_exists. exists w. split; [done|lia].
Qed.

Lemma has_bigram_not (corpus : list (list symbol)) :
  ¬ has_bigram corpus → corpus_bigrams corpus = [].
Proof. intros Hno. by destruct (has_bigram_cases corpus). Qed.

(** The model the script builds for a language. *)
Lemma language_model (T : list (list symbol)) :
  (has_bigram T →
   ∃ m σ, Absdisc_Phoneme_LM_new 1 0 true (1 # 2) (language_store T)
          = (Ok m, σ)
          ∧ scorable m σ)
  ∧ (¬ has_bigram T →
     ∃ σ, Absdisc_Phoneme_LM_new 1 0 true (1 # 2) (language_store T)
          = (Err ZeroDivisionError, σ)).
Proof.
  assert (lists (language_store T) !!! 1 = T) as HT by done.
  assert (sets (language_store T) !!! 0 = phoneme_set_of T) as HV by done.
  split.
  - intros Hb. apply corpus_bigrams_nonempty in Hb.
    rewrite Absdisc_Phoneme_LM_new_ok by (by rewrite HT).
    eexists _, _. split; [done|]. unfold scorable.
    cbn [phoneme_set fitted]. rewrite sets_store_after, HT, HV.
    split.
    + unfold vocabulary. apply elem_of_union. left.
      by apply elem_of_singleton.
    + intros h x Hh Hx. apply fitted_entry_probability; try done.
      pose proof (phoneme_set_of_closed T) as Hcl.
      unfold corpus_closed in *. eapply Forall_impl; [exact Hcl|].
      intros w Hw. eapply Forall_impl; [exact Hw|].
      intros y Hy. unfold vocabulary. apply elem_of_union. by right.
  - intros Hno. eexists.
    apply Absdisc_Phoneme_LM_new_empty. rewrite HT. by apply has_bigram_not.
Qed.

Lemma surprisal_no_bigram (self : Phoneme_LM) (σ : store)
    (test_corpus : list (list symbol)) :
  corpus_bigrams test_corpus = [] →
  surprisal self σ test_corpus = Err ZeroDivisionError.
Proof.
  intros He. unfold surprisal, perplexity.
  by rewrite perplexity_loop_bigrams, He.
Qed.

(** The inner loop on a scorable model. *)
Lemma report_inner (m : Phoneme_LM) (σ : store) (LID : string)
    (test_data : gmap string (list (list symbol)))
    (targets : list string) (rows : list (string * string * R)) :
  scorable m σ →
  let inner :=
    foldM (λ rows LID_2,
             s ← surprisal m σ (test_data !!! LID_2);
             Ok (rows ++ [(LID, LID_2, s)])) rows targets in
  (Forall (λ LID_2, has_bigram (test_data !!! LID_2)) targets →
   ∃ new, inner = Ok (rows ++ new)
          ∧ new.*1 = (λ LID_2, (LID, LID_2)) <$> targets
          ∧ Forall (λ r, (0 <= r.2)%R) new)
  ∧ (¬ Forall (λ LID_2, has_bigram (test_data !!! LID_2)) targets →
     inner = Err ZeroDivisionError).
Proof.
  intros Hsc. cbv zeta. revert rows.
  induction targets as [|LID_2 targets IH]; intros rows.
  - split.
    + intros _. exists []. by rewrite app_nil_r.
    + intros Hno. exfalso. apply Hno. constructor.
  - cbn [foldM].
    destruct (has_bigram_cases (test_data !!! LID_2)) as [Hb|He].
    + destruct (perplexity_scorable m σ _ Hsc
                  (corpus_bigrams_nonempty _ Hb))
        as (pp & _ & _ & Hs & Hpos).
      rewrite Hs. cbn [mbind result_bind].
      destruct (IH (rows ++ [(LID, LID_2, (ln pp / ln 2)%R)]))
        as [IHok IHerr].
      split.
      * intros Hall. apply Forall_cons in Hall as [_ Hall].
        destruct (IHok Hall) as (new & Hnew & Hfst & Hge).
        exists ((LID, LID_2, (ln pp / ln 2)%R) :: new).
        rewrite Hnew, <- app_assoc. split; [done|].
        split; [by rewrite fmap_cons, Hfst|by constructor].
      * intros Hno. apply IHerr. intros Hall. apply Hno. by constructor.
    + rewrite surprisal_no_bigram by done. split; [|done].
      intros Hall. apply Forall_cons in Hall as [Hb _].
      apply corpus_bigrams_nonempty in Hb. done.
Qed.

#[local] Instance has_bigram_dec (corpus : list (list symbol)) :
  Decision (has_bigram corpus).
Proof. unfold has_bigram. apply _. Defined.

(** The outer loop, on any list of training languages. *)
Lemma report_outer (train_data test_data : gmap string (list (list symbol)))
    (trains : list string) (rows : list (string * string * R)) :
  let outer :=
    foldM (λ rows LID,
             match Absdisc_Phoneme_LM_new 1 0 true (1 # 2)
                     (language_store (train_data !!! LID)) with
             | (Ok phoneLM, σ) =>
                 foldM (λ rows LID_2,
                          s ← surprisal phoneLM σ (test_data !!! LID_2);
                          Ok (rows ++ [(LID, LID_2, s)]))
                       rows TGT_LIDs
             | (Err e, _) => Err e
             end)
          rows trains in
  (Forall (λ LID, has_bigram (train_data !!! LID)) trains →
   Forall (λ LID, has_bigram (test_data !!! LID)) TGT_LIDs →
   ∃ new, outer = Ok (rows ++ new)
          ∧ new.*1 = concat ((λ LID, (λ LID_2, (LID, LID_2)) <$> TGT_LIDs)
                             <$> trains)
          ∧ Forall (λ r, (0 <= r.2)%R) new)
  ∧ (¬ Forall (λ LID, has_bigram (train_data !!! LID)) trains
     ∨ (trains ≠ []
        ∧ ¬ Forall (λ LID, has_bigram (test_data !!! LID)) TGT_LIDs) →
     outer = Err ZeroDivisionError).
Proof.
  cbv zeta. revert rows.
  induction trains as [|LID trains IH]; intros rows.
  { split.
    - intros _ _. exists []. by rewrite app_nil_r.
    - intros [Hno|[Hno _]]; [|done]. exfalso. apply Hno. constructor. }
  cbn [foldM].
  destruct (language_model (train_data !!! LID)) as [Hok Herr].
  destruct (decide (has_bigram (train_data !!! LID))) as [Hb|Hb].
  - destruct (Hok Hb) as (m & σ & -> & Hsc).
    destruct (report_inner m σ LID test_data TGT_LIDs rows Hsc)
      as [Hin_ok Hin_err].
    destruct (decide (Forall (λ LID_2, has_bigram (test_data !!! LID_2))
                        TGT_LIDs)) as [Hall|Hnot].
    + destruct (Hin_ok Hall) as (new1 & -> & Hfst1 & Hge1).
      cbn [mbind result_bind].
      destruct (IH (rows ++ new1)) as [IHok IHerr]. split.
      * intros Htr _. apply Forall_cons in Htr as [_ Htr].
        destruct (IHok Htr Hall) as (new2 & -> & Hfst2 & Hge2).
        exists (new1 ++ new2). rewrite <- app_assoc. split; [done|].
        split; [|by apply Forall_app].
        rewrite fmap_app, Hfst1, Hfst2. done.
      * intros [Hno|[_ Hno]]; [|done].
        apply IHerr. left. intros Htr. apply Hno. by constructor.
    + rewrite (Hin_err Hnot). split; [done|done].
  - destruct (Herr Hb) as (σ & ->). split; [|done].
    intros Htr. by apply Forall_cons in Htr as [? _].
Qed.

(** X15. The report of the script is defined exactly when every training
    language and every target language has a word in its dataset (a
    sequence of two symbols or more, which every word [read_data] keeps
    is).  Then it has one row for every pair of a training and a target
    language, in the order of the two lists, and every surprisal in it is
    at least 0.  Otherwise the script raises [ZeroDivisionError]: from the
    constructor for a training language without a word, from perplexity
    for a target language without one. *)
Theorem report_result
    (train_data test_data : gmap string (list (list symbol))) :
  (all_languages_covered train_data test_data →
   ∃ rows, report train_data test_data = Ok rows
           ∧ rows.*1 = concat ((λ LID, (λ LID_2, (LID, LID_2)) <$> TGT_LIDs)
                               <$> TRN_LIDs)
           ∧ Forall (λ r, (0 <= r.2)%R) rows)
  ∧ (¬ all_languages_covered train_data test_data →
     report train_data test_data = Err ZeroDivisionError).
Proof.
  destruct (report_outer train_data test_data TRN_LIDs []) as [Hok Herr].
  split.
  - intros [Htr Hte]. destruct (Hok Htr Hte) as (rows & Hrows & Hfst & Hge).
    exists rows. done.
  - intros Hno. apply Herr.
    destruct (decide (Forall (λ LID, has_bigram (train_data !!! LID))
                        TRN_LIDs)) as [Htr|Htr]; [|by left].
    right. split; [done|]. intros Hte. by apply Hno.
Qed.

Lemma report_result_witness :
  (∃ rows, report example_train_data example_test_data = Ok rows
           ∧ rows.*1 = concat ((λ LID, (λ LID_2, (LID, LID_2)) <$> TGT_LIDs)
                               <$> TRN_LIDs)
           ∧ Forall (λ r, (0 <= r.2)%R) rows)
  ∧ report example_train_data ∅ = Err ZeroDivisionError.
Proof.
  split.
  - apply (proj1 (report_result example_train_data example_test_data)).
    split; apply (bool_decide_unpack _); vm_compute; exact I.
  - apply (proj2 (report_result example_train_data ∅)).
    intros [_ Hte]. apply Forall_cons in Hte as [Hb _].
    apply Exists_exists in Hb as (w & Hw & _).
    rewrite lookup_total_empty in Hw. by inversion Hw.
Defined.

Lemma as_read_has_bigram (d : gmap string (list (list symbol)))
    (LID : string) :
  as_read d → has_bigram (d !!! LID) ↔ is_Some (d !! LID).
Proof.
  intros Hd. unfold has_bigram. rewrite lookup_total_alt.
  destruct (d !! LID) as [ws|] eqn:Hws; simpl.
  - destruct (Hd LID ws Hws) as [Hne Hlen]. split; [by eexists|]. intros _.
    destruct ws as [|w ws]; [done|]. left.
    apply Forall_cons in Hlen as [Hw _]. lia.
  - split; [by inversion 1|by intros []].
Qed.

(** X16. On datasets as [read_data] returns them, the report is defined
    exactly when every training language is a key of the training dataset
    and every target language is a key of the test dataset; then it has 39
    rows.  When a language is missing from its file the script raises
    [ZeroDivisionError]. *)
Theorem report_needs_every_language
    (train_data test_data : gmap string (list (list symbol))) :
  as_read train_data → as_read test_data →
  let complete :=
    Forall (λ LID, is_Some (train_data !! LID)) TRN_LIDs
    ∧ Forall (λ LID, is_Some (test_data !! LID)) TGT_LIDs in
  (complete → ∃ rows, report train_data test_data = Ok rows
                      ∧ length rows = 39)
  ∧ (¬ complete → report train_data test_data = Err ZeroDivisionError).
Proof.
  intros Htrain Htest. cbv zeta.
  destruct (report_outer train_data test_data TRN_LIDs []) as [Hok Herr].
  assert (Forall (λ LID, has_bigram (train_data !!! LID)) TRN_LIDs
          ↔ Forall (λ LID, is_Some (train_data !! LID)) TRN_LIDs) as Htr.
  { split; intros HF; (eapply Forall_impl; [exact HF|]); intros LID;
      by apply as_read_has_bigram. }
  assert (Forall (λ LID, has_bigram (test_data !!! LID)) TGT_LIDs
          ↔ Forall (λ LID, is_Some (test_data !! LID)) TGT_LIDs) as Hte.
  { split; intros HF; (eapply Forall_impl; [exact HF|]); intros LID;
      by apply as_read_has_bigram. }
  split.
  - intros [H1 H2]. apply Htr in H1. apply Hte in H2.
    destruct (Hok H1 H2) as (rows & Hrows & Hfst & _).
    exists rows. split; [done|].
    apply (f_equal length) in Hfst. rewrite length_fmap in Hfst.
    rewrite Hfst. done.
  - intros Hno. apply Herr.
    destruct (decide (Forall (λ LID, has_bigram (train_data !!! LID))
                        TRN_LIDs)) as [H1|H1]; [|by left].
    right. split; [done|]. intros H2. apply Hno.
    split; [by apply Htr|by apply Hte].
Qed.

Lemma report_needs_every_language_witness :
  let complete :=
    Forall (λ LID, is_Some (example_train_data !! LID)) TRN_LIDs
    ∧ Forall (λ LID, is_Some (example_test_data !! LID)) TGT_LIDs in
  (complete → ∃ rows, report example_train_data example_test_data = Ok rows
                      ∧ length rows = 39)
  ∧ (¬ complete
     → report example_train_data example_test_data = Err ZeroDivisionError).
Proof.
  apply (report_needs_every_language example_train_data example_test_data).
  - intros ID ws Hws.
    assert (ws = [["#"; "a"; "b"; "@"]]) as ->.
    { unfold example_train_data in Hws.
      apply elem_of_list_to_map_2 in Hws.
      apply list_elem_of_fmap in Hws as (LID & [= _ ->] & _). done. }
    split; [done|]. repeat constructor.
  - intros ID ws Hws.
    assert (ws = [["#"; "b"; "x"; "@"]]) as ->.
    { unfold example_test_data in Hws.
      apply elem_of_list_to_map_2 in Hws.
      apply list_elem_of_fmap in Hws as (LID & [= _ ->] & _). done. }
    split; [done|]. repeat constructor.
Defined.
